(** * cobol-rekt: extraction of JCL/COBOL relationships and graph assembly

    A shallow embedding of the four Python scripts

      - [scripts/analyze_jcl_to_cobol.py]
      - [scripts/generate_graph_from_aggregated.py]
      - [scripts/generate_dependency_graph_json.py]
      - [smojol-jcl/python/jcl_parser_wrapper.py]

    and the properties of their extraction and graph-assembly code.

    Modelling conventions.

    - A Python [str] is a [list ascii].  JCL and COBOL sources are 7-bit
      ASCII text; the character predicates below ([is_space], [is_word],
      [upper_char], ...) are those of CPython for code points below 128.
      A text with a character above 127 is outside the model: there
      [\s], [\w], [\b], [str.upper] and matching under [re.IGNORECASE]
      follow the Unicode tables, which [ascii] cannot hold.
    - The regular expressions of the scripts are values of [Re.regex];
      [Re.search], [Re.finditer] and [Re.findall] follow the leftmost,
      greedy, backtracking discipline of Python's [re] module.
    - Python dictionaries whose iteration order matters are association
      lists written with [dict_set]; the others are [gmap]s, sets are
      [gset]s.
    - The [graphviz.Digraph] object is its list of body statements. *)

From Stdlib Require Import Ascii String ZArith Lia List Bool.
From stdpp Require Import base option list sorting gmap strings.

Local Open Scope char_scope.

(** ** Strings *)

Abbreviation str := (list ascii).

Definition txt (s : string) : str := list_ascii_of_string s.

Module Char.

Definition code (c : ascii) : N := N_of_ascii c.

Definition between (lo hi : N) (c : ascii) : bool :=
  ((lo <=? code c) && (code c <=? hi))%N.

Definition is_upper : ascii -> bool := between 65 90.
Definition is_lower : ascii -> bool := between 97 122.
Definition is_digit : ascii -> bool := between 48 57.

(** [str.isspace] on ASCII: TAB, LF, VT, FF, CR, FS, GS, RS, US, SPACE. *)
Definition is_space (c : ascii) : bool :=
  between 9 13 c || between 28 32 c.

(** [\w] on ASCII. *)
Definition is_word (c : ascii) : bool :=
  is_upper c || is_lower c || is_digit c || (code c =? 95)%N.

Definition upper_char (c : ascii) : ascii :=
  if is_lower c then ascii_of_N (code c - 32) else c.

Definition lower_char (c : ascii) : ascii :=
  if is_upper c then ascii_of_N (code c + 32) else c.

End Char.

(** [s.upper()] *)
Definition upper (s : str) : str := map Char.upper_char s.

(** ** [scripts/analyze_jcl_to_cobol.py]: the system-utility classifier *)

Definition system_programs : gset str :=
  {[ txt "IEFBR14"; txt "IDCAMS"; txt "SORT"; txt "SDSF"; txt "IEBGENER";
     txt "IKJEFT01"; txt "IKJEFT1B"; txt "FTP"; txt "DFHCSDUP" ]}.

Definition is_system_program (prog_name : str) : bool :=
  bool_decide (prog_name ∈ system_programs).

(** ** [scripts/analyze_jcl_to_cobol.py]: classification of one reference *)

Module Analyze.

(** [stats = {'found': 0, 'system': 0, 'missing': 0}] *)
Record stats := Stats { found : nat; system : nat; missing : nat }.

(** The mutable data of [main]'s scan loop.  [cobol_index] maps a
    program identifier to the path of its source file. *)
Record scan := Scan {
  jcl_to_cobol : gmap str (list str);
  cobol_to_jcl : gmap str (list str);
  st : stats
}.

Definition scan0 : scan := Scan ∅ ∅ (Stats 0 0 0).

(** [d[k].append(v)] on a [defaultdict(list)] *)
Definition dd_append (k v : str) (d : gmap str (list str)) : gmap str (list str) :=
  <[k := default [] (d !! k) ++ [v]]> d.

(** The outcome of the [if]/[elif]/[else] of the loop body. *)
Inductive classification :=
| Resolved (cbl_file : str)
| SystemUtility (prog : str)
| Unresolved (prog : str).

Definition classify (cobol_index : gmap str str) (prog : str) : classification :=
  let prog_upper := upper prog in
  match cobol_index !! prog_upper with
  | Some cbl_file => Resolved cbl_file
  | None =>
      if is_system_program prog_upper then SystemUtility prog_upper
      else Unresolved prog_upper
  end.

(** Body of [for prog in programs:]. *)
Definition scan_prog (cobol_index : gmap str str) (jcl_name : str)
    (s : scan) (prog : str) : scan :=
  let prog_upper := upper prog in
  match cobol_index !! prog_upper with
  | Some cbl_file =>
      Scan (dd_append jcl_name prog_upper (jcl_to_cobol s))
           (dd_append prog_upper jcl_name (cobol_to_jcl s))
           (Stats (S (found (st s))) (system (st s)) (missing (st s)))
  | None =>
      if is_system_program prog_upper then
        Scan (jcl_to_cobol s) (cobol_to_jcl s)
             (Stats (found (st s)) (S (system (st s))) (missing (st s)))
      else
        Scan (jcl_to_cobol s) (cobol_to_jcl s)
             (Stats (found (st s)) (system (st s)) (S (missing (st s))))
  end.

(** The three guards of the loop body, as propositions. *)
Definition is_resolved (ix : gmap str str) (prog : str) : Prop :=
  ∃ f, classify ix prog = Resolved f.
Definition is_system_utility (ix : gmap str str) (prog : str) : Prop :=
  ∃ p, classify ix prog = SystemUtility p.
Definition is_unresolved (ix : gmap str str) (prog : str) : Prop :=
  ∃ p, classify ix prog = Unresolved p.

End Analyze.

(** ** A model of the part of Python's [re] that the scripts use *)

Module Re.

(** Character classes of the patterns: [\s], [\S] and [[A-Z0-9]]. *)
Inductive cclass := Space | NotSpace | UpperAlnum.

(** Patterns.  [Plus k] is the greedy [k+] over a character class, [Any]
    is the dot: any character but a line feed. *)
Inductive regex :=
| Lit (c : ascii)
| Plus (k : cclass)
| Group (r : regex)
| WordBoundary
| Cat (r1 r2 : regex)
| Eps
| Any.

Definition newline : ascii := ascii_of_nat 10.

(** A literal character under [re.IGNORECASE] ([ic = true]) or not. *)
Definition char_eq (ic : bool) (p c : ascii) : bool :=
  if ic then bool_decide (Char.lower_char p = Char.lower_char c)
  else bool_decide (p = c).

Definition in_class (ic : bool) (k : cclass) (c : ascii) : bool :=
  match k with
  | Space => Char.is_space c
  | NotSpace => negb (Char.is_space c)
  | UpperAlnum =>
      Char.is_upper c || Char.is_digit c || (ic && Char.is_lower c)
  end.

Definition word_before (prev : option ascii) : bool :=
  match prev with Some c => Char.is_word c | None => false end.

Definition word_after (s : str) : bool :=
  match s with c :: _ => Char.is_word c | [] => false end.

(** [\b]: exactly one side of the position is a word character. *)
Definition at_boundary (prev : option ascii) (s : str) : bool :=
  xorb (word_before prev) (word_after s).

Section Exec.
Context {A : Type}.
Variable ic : bool.

(** Greedy [k+]: take as many characters as possible, give one back at
    a time while the rest of the pattern fails. *)
Fixpoint plus_class (k : cclass) (s : str)
    (K : option ascii → str → option A) : option A :=
  match s with
  | c :: s' =>
      if in_class ic k c then
        match plus_class k s' K with
        | Some a => Some a
        | None => K (Some c) s'
        end
      else None
  | [] => None
  end.

(** Backtracking matcher in continuation-passing style: [prev] is the
    character before the current position, [s] the text from it on,
    [caps] the groups closed so far. *)
Fixpoint exec (r : regex) (prev : option ascii) (s : str) (caps : list str)
    (K : option ascii → str → list str → option A) : option A :=
  match r with
  | Lit p =>
      match s with
      | c :: s' => if char_eq ic p c then K (Some c) s' caps else None
      | [] => None
      end
  | Plus k => plus_class k s (λ p s', K p s' caps)
  | Group r1 =>
      exec r1 prev s caps
        (λ p s' caps', K p s' (caps' ++ [take (length s - length s') s]))
  | WordBoundary => if at_boundary prev s then K prev s caps else None
  | Cat r1 r2 =>
      exec r1 prev s caps (λ p s' caps', exec r2 p s' caps' K)
  | Eps => K prev s caps
  | Any =>
      match s with
      | c :: s' => if bool_decide (c = newline) then None else K (Some c) s' caps
      | [] => None
      end
  end.
End Exec.

(** A match object: [m.start()], [m.end()] and [m.groups()]. *)
Record match_obj := Match { m_start : nat; m_end : nat; m_groups : list str }.

(** The truth value of the result of [re.search]. *)
Definition matched (m : option match_obj) : bool :=
  match m with Some _ => true | None => false end.

(** [m.group(i)] for [i >= 1]. *)
Definition group (m : match_obj) (i : nat) : str :=
  default [] (m_groups m !! pred i).

(** One attempt at the current position: length matched and groups. *)
Definition match_here (ic : bool) (r : regex) (prev : option ascii) (s : str)
    : option (nat * list str) :=
  exec ic r prev s [] (λ _ s' caps, Some (length s - length s', caps)).

Fixpoint search_from (ic : bool) (r : regex) (prev : option ascii) (s : str)
    (pos : nat) : option match_obj :=
  match match_here ic r prev s with
  | Some (n, caps) => Some (Match pos (pos + n) caps)
  | None =>
      match s with
      | c :: s' => search_from ic r (Some c) s' (S pos)
      | [] => None
      end
  end.

(** [re.search(r, text, flags)] *)
Definition search (ic : bool) (r : regex) (text : str) : option match_obj :=
  search_from ic r None text 0.

(** Successive non-overlapping matches, left to right.  [skip] counts the
    characters of the previous match still to be stepped over. *)
Fixpoint finditer_from (ic : bool) (r : regex) (prev : option ascii) (s : str)
    (pos skip : nat) : list match_obj :=
  match skip with
  | S skip' =>
      match s with
      | c :: s' => finditer_from ic r (Some c) s' (S pos) skip'
      | [] => []
      end
  | 0 =>
      match match_here ic r prev s with
      | Some (n, caps) =>
          Match pos (pos + n) caps ::
          match s with
          | c :: s' => finditer_from ic r (Some c) s' (S pos) (pred n)
          | [] => []
          end
      | None =>
          match s with
          | c :: s' => finditer_from ic r (Some c) s' (S pos) 0
          | [] => []
          end
      end
  end.

(** [re.finditer(r, text, flags)] *)
Definition finditer (ic : bool) (r : regex) (text : str) : list match_obj :=
  finditer_from ic r None text 0 0.

(** [re.findall(r, text)] for a pattern with one group. *)
Definition findall (ic : bool) (r : regex) (text : str) : list str :=
  (λ m, group m 1) <$> finditer ic r text.

(** A literal word of the pattern. *)
Definition lit (w : str) : regex := foldr (λ c r, Cat (Lit c) r) Eps w.

(** Characters with a meaning of their own in the pattern syntax. *)
Definition is_special (c : ascii) : bool :=
  bool_decide (c ∈ txt ".^$*+?{}[]\|()").

End Re.

Infix "·" := Re.Cat (at level 41, right associativity).

(** [text.find(sub, start)]: the least index [i >= start] at which [sub]
    occurs, [-1] when there is none. *)
Fixpoint is_prefix (p s : str) : bool :=
  match p, s with
  | [], _ => true
  | a :: p', b :: s' => bool_decide (a = b) && is_prefix p' s'
  | _ :: _, [] => false
  end.

Fixpoint find_from (sub s : str) (pos : nat) : Z :=
  if is_prefix sub s then Z.of_nat pos
  else match s with
       | _ :: s' => find_from sub s' (S pos)
       | [] => (-1)%Z
       end.

Definition find (sub text : str) (start : nat) : Z :=
  if decide (start ≤ length text) then find_from sub (drop start text) start
  else (-1)%Z.

(** [text[i:j]] and [text[i:]] for [0 <= i], [0 <= j]. *)
Definition slice (text : str) (i j : nat) : str := take (j - i) (drop i text).
Definition slice_from (text : str) (i : nat) : str := drop i text.

(** ** [scripts/analyze_jcl_to_cobol.py]: the program reference extractor *)

(** [r'PGM=([A-Z0-9]+)'] *)
Definition pgm_pattern : Re.regex :=
  Re.lit (txt "PGM=") · Re.Group (Re.Plus Re.UpperAlnum).

(** [list(set(matches))]: the elements of the set, each once, in the
    order the set happens to enumerate them. *)
Definition extract_pgm_from_jcl (jcl_content : str) : list str :=
  let matches := Re.findall false pgm_pattern jcl_content in
  elements (list_to_set matches : gset str).

(** ** Insertion-ordered dictionaries *)

(** [d[k] = v]: a present key keeps its place and takes the new value, a
    new key goes to the end. *)
Fixpoint dict_set {V : Type} (k : str) (v : V) (d : list (str * V)) : list (str * V) :=
  match d with
  | [] => [(k, v)]
  | (k', v') :: d' =>
      if decide (k = k') then (k, v) :: d' else (k', v') :: dict_set k v d'
  end.

Fixpoint dict_get {V : Type} (k : str) (d : list (str * V)) : option V :=
  match d with
  | [] => None
  | (k', v') :: d' => if decide (k = k') then Some v' else dict_get k d'
  end.

(** ** [scripts/generate_graph_from_aggregated.py] *)

Module Aggregated.
Import Re.

Definition IGNORECASE : bool := true.

(** [r'SELECT\s+(\S+)\s+ASSIGN\s+TO\s+(\S+)'] *)
Definition select_pattern : regex :=
  lit (txt "SELECT") · Plus Space · Group (Plus NotSpace) · Plus Space ·
  lit (txt "ASSIGN") · Plus Space · lit (txt "TO") · Plus Space ·
  Group (Plus NotSpace).

(** [r'ORGANIZATION\s+IS\s+(\S+)'] *)
Definition org_pattern : regex :=
  lit (txt "ORGANIZATION") · Plus Space · lit (txt "IS") · Plus Space ·
  Group (Plus NotSpace).

(** [r'ACCESS\s+MODE\s+IS\s+(\S+)'] *)
Definition access_pattern : regex :=
  lit (txt "ACCESS") · Plus Space · lit (txt "MODE") · Plus Space ·
  lit (txt "IS") · Plus Space · Group (Plus NotSpace).

Record file_info := FileInfo {
  assign_to : str;
  organization : str;
  access_mode : str
}.

(** The text in which the properties of one declaration are looked up:
    from the end of the declaration's match to the next occurrence of
    the word [SELECT] as [str.find] sees it. *)
Definition section_text (text : str) (select_end : nat) : str :=
  let next_select_start := find (txt "SELECT") text select_end in
  if (next_select_start =? -1)%Z then slice_from text select_end
  else slice text select_end (Z.to_nat next_select_start).

(** [m.group(1).upper() if m else "SEQUENTIAL"] *)
Definition property (r : regex) (section : str) : str :=
  match search IGNORECASE r section with
  | Some m => upper (group m 1)
  | None => txt "SEQUENTIAL"
  end.

(** Body of [for select_match in selects:]. *)
Definition add_select (text : str) (files : list (str * file_info))
    (select_match : match_obj) : list (str * file_info) :=
  let file_name := upper (group select_match 1) in
  let assign := upper (group select_match 2) in
  let section := section_text text (m_end select_match) in
  dict_set file_name
    (FileInfo assign (property org_pattern section)
       (property access_pattern section))
    files.

Definition extract_files_from_cobol_text (text : str) : list (str * file_info) :=
  foldl (add_select text) [] (finditer IGNORECASE select_pattern text).

Inductive file_type := INPUT | OUTPUT | EXTEND | UNKNOWN.

Global Instance file_type_eq_dec : EqDecision file_type.
Proof. solve_decision. Defined.

Definition direction_word (d : file_type) : str :=
  match d with
  | INPUT => txt "INPUT"
  | OUTPUT => txt "OUTPUT"
  | EXTEND => txt "EXTEND"
  | UNKNOWN => txt "UNKNOWN"
  end.

(** The file name is spliced into the pattern by the f-string as it is,
    not escaped, and is read as the pattern it spells: a character that is
    not special stands for itself, a dot stands for any character but a
    line feed.  A name with another special character (a quantifier, a
    bracket, a backslash, ...) spells a pattern, or none at all, that is
    beyond this model: [None]. *)
Definition name_atom (c : ascii) : option regex :=
  if bool_decide (c = "."%char) then Some Any
  else if is_special c then None
  else Some (Lit c).

Fixpoint name_pattern (file_name : str) : option regex :=
  match file_name with
  | [] => Some Eps
  | c :: s => a ← name_atom c; r ← name_pattern s; Some (a · r)
  end.

(** A name without any special character. *)
Definition plain_name (file_name : str) : bool :=
  forallb (λ c, negb (is_special c)) file_name.

(** [rf'OPEN\s+<direction>\s+{file_name}\b'], with the pattern that the
    file name spells. *)
Definition open_pattern_of (d : file_type) (name : regex) : regex :=
  lit (txt "OPEN") · Plus Space · lit (direction_word d) · Plus Space ·
  name · WordBoundary.

(** The same pattern for a name that stands for itself. *)
Definition open_pattern (d : file_type) (file_name : str) : regex :=
  open_pattern_of d (lit file_name).

Definition extract_file_type_from_fd (text file_name : str) : option file_type :=
  name ← name_pattern file_name;
  Some
    (if matched (search IGNORECASE (open_pattern_of INPUT name) text)
     then INPUT
     else if matched (search IGNORECASE (open_pattern_of OUTPUT name) text)
     then OUTPUT
     else if matched (search IGNORECASE (open_pattern_of EXTEND name) text)
     then EXTEND
     else UNKNOWN).

(** The body of a [graphviz.Digraph]: node statements, edge statements
    and sub-graphs, which in this script hold node statements [(id,
    label)] only.  Colours, shapes and fonts are not kept.  The pictograms
    at the head of the labels of the program and of the job are beyond
    the 7-bit characters; a literal holds them as their UTF-8 bytes. *)
Inductive stmt :=
| Node (id label : str)
| Edge (tail head label : str)
| Subgraph (name : str) (body : list (str * str)).

Record stats := Stats {
  program : nat;
  input_files : nat;
  output_files : nat;
  extend_files : nat;
  copybooks_count : nat;
  jcl_context : bool
}.

(** The fields of the aggregated JSON document that the script reads:
    [data.get('text', '')], [data.get('copybooks', [])] and, when the key
    [jclExecutionContext] is there, the job name if it has one. *)
Record aggregated := Aggregated {
  text : str;
  copybooks : list str;
  jclExecutionContext : option (option str)
}.

Definition pgm_id (program_name : str) : str := txt "PGM_" ++ program_name.
Definition file_in_id (file_name : str) : str := txt "FILE_IN_" ++ file_name.
Definition file_out_id (file_name : str) : str := txt "FILE_OUT_" ++ file_name.
Definition file_ext_id (file_name : str) : str := txt "FILE_EXT_" ++ file_name.
Definition cpy_id (copybook : str) : str := txt "CPY_" ++ copybook.

(** [f'📦 {program_name}\n(COBOL Program)'] and [f'🔵 {job_name}\n(JCL Job)'] *)
Definition pgm_label (program_name : str) : str :=
  txt "📦 " ++ program_name ++ [ascii_of_nat 10] ++ txt "(COBOL Program)".

Definition job_label (job_name : str) : str :=
  txt "🔵 " ++ job_name ++ [ascii_of_nat 10] ++ txt "(JCL Job)".

(** [f'{file_name}\n({file_info["organization"]})'] *)
Definition file_label (file_name : str) (fi : file_info) : str :=
  file_name ++ [ascii_of_nat 10] ++ txt "(" ++ organization fi ++ txt ")".

(** [for file_name, file_info in files.items(): file_type = ...] *)
Definition typed_files (text : str) (files : list (str * file_info))
    : option (list (str * file_info * file_type)) :=
  mapM (λ '(file_name, fi),
          ft ← extract_file_type_from_fd text file_name; Some (file_name, fi, ft))
       files.

Definition of_type (d : file_type) (l : list (str * file_info * file_type))
    : list (str * file_info) :=
  omap (λ '(n, fi, ft), if decide (ft = d) then Some (n, fi) else None) l.

(** One [if xs: with graph.subgraph(name=...) as c: for ...] block: the
    edges go to the parent graph as they are made, the cluster with its
    nodes is added when the [with] block is left. *)
Definition cluster (name : str) (xs : list (str * file_info))
    (node_id : str → str) (edge : str → str * str * str) : list stmt :=
  match xs with
  | [] => []
  | _ =>
      ((λ '(n, _), let '(a, b, l) := edge n in Edge a b l) <$> xs) ++
      [Subgraph name ((λ '(n, fi), (node_id n, file_label n fi)) <$> xs)]
  end.

Definition files_part (program_name : str)
    (tf : list (str * file_info * file_type)) : list stmt :=
  cluster (txt "cluster_inputs") (of_type INPUT tf) file_in_id
    (λ n, (file_in_id n, pgm_id program_name, txt "READ")) ++
  cluster (txt "cluster_outputs") (of_type OUTPUT tf) file_out_id
    (λ n, (pgm_id program_name, file_out_id n, txt "WRITE")) ++
  cluster (txt "cluster_extends") (of_type EXTEND tf) file_ext_id
    (λ n, (pgm_id program_name, file_ext_id n, txt "EXTEND")).

Definition copybooks_part (program_name : str) (copybooks_list : list str)
    : list stmt :=
  match copybooks_list with
  | [] => []
  | _ =>
      ((λ c, Edge (cpy_id c) (pgm_id program_name) (txt "includes"))
         <$> copybooks_list) ++
      [Subgraph (txt "cluster_copybooks")
         ((λ c, (cpy_id c, txt "COPY" ++ [ascii_of_nat 10] ++ c))
            <$> copybooks_list)]
  end.

Definition jcl_part (program_name : str) (ctx : option (option str))
    : list stmt :=
  match ctx with
  | Some job =>
      [Node (txt "JCL_JOB")
         (job_label (default (txt "UNKNOWN_JOB") job));
       Edge (txt "JCL_JOB") (pgm_id program_name) (txt "executes")]
  | None => []
  end.

(** The graph and the statistics that [create_graph_from_aggregated_json]
    has built when it hands the graph to the renderer. *)
Definition create_graph_from_aggregated_json (program_name : str) (data : aggregated)
    : option (list stmt * stats) :=
  let cobol_text := text data in
  let copybooks_list := copybooks data in
  let files := extract_files_from_cobol_text cobol_text in
  tf ← typed_files cobol_text files;
  Some
    ([Node (pgm_id program_name) (pgm_label program_name)] ++
     files_part program_name tf ++
     copybooks_part program_name copybooks_list ++
     jcl_part program_name (jclExecutionContext data),
     Stats 1
       (length (of_type INPUT tf)) (length (of_type OUTPUT tf))
       (length (of_type EXTEND tf)) (length copybooks_list)
       (bool_decide (is_Some (jclExecutionContext data)))).

(** All node statements and all edge statements of a body, clusters
    included. *)
Fixpoint nodes_of (g : list stmt) : list (str * str) :=
  match g with
  | [] => []
  | Node i l :: g' => (i, l) :: nodes_of g'
  | Edge _ _ _ :: g' => nodes_of g'
  | Subgraph _ b :: g' => b ++ nodes_of g'
  end.

Definition node_ids (g : list stmt) : list str := fst <$> nodes_of g.

Fixpoint edges_of (g : list stmt) : list (str * str * str) :=
  match g with
  | [] => []
  | Edge a b l :: g' => (a, b, l) :: edges_of g'
  | _ :: g' => edges_of g'
  end.

End Aggregated.

(** ** [scripts/generate_dependency_graph_json.py] *)

(** [s.replace(old, new)] for a non-empty [old]: occurrences are replaced
    left to right and do not overlap.  [skip] counts the characters of the
    occurrence just replaced that are still to be dropped. *)
Fixpoint replace_go (old new : str) (skip : nat) (s : str) : str :=
  match s with
  | [] => []
  | c :: s' =>
      match skip with
      | S k => replace_go old new k s'
      | 0 =>
          if is_prefix old s then new ++ replace_go old new (pred (length old)) s'
          else c :: replace_go old new 0 s'
      end
  end.

Definition replace (old new s : str) : str := replace_go old new 0 s.

Module DepGraph.

(** One entry of [mappings["cbl_files"]]. *)
Record program_info := ProgramInfo { program : str; jcl_files : list str }.

Inductive node_type := program_node | jcl_node.

Global Instance node_type_eq_dec : EqDecision node_type.
Proof. solve_decision. Defined.

(** [{"id": ..., "type": ..., "label": ...}]; a program node also carries
    its [jcl_files]. *)
Record node := Node {
  id : str;
  type : node_type;
  label : str;
  node_jcl_files : option (list str)
}.

Record edge := Edge { source : str; target : str; relationship : str }.

(** [graph["nodes"]], [graph["edges"]] and the two lists of the summary. *)
Record graph := Graph {
  nodes : list node;
  edges : list edge;
  programs_with_jcl : list str;
  programs_without_jcl : list str
}.

Definition empty : graph := Graph [] [] [] [].

(** [jcl_file.replace(".jcl", "").replace(".", "_")] *)
Definition jcl_id_of (jcl_file : str) : str :=
  replace (txt ".") (txt "_") (replace (txt ".jcl") [] jcl_file).

(** [any(n["id"] == jcl_id for n in graph["nodes"])] *)
Definition has_id (i : str) (ns : list node) : bool :=
  existsb (λ n, bool_decide (id n = i)) ns.

(** Body of [for jcl_file in jcl_files:]. *)
Definition add_jcl (program_name : str) (g : graph) (jcl_file : str) : graph :=
  let jcl_id := jcl_id_of jcl_file in
  let nodes' :=
    if negb (has_id jcl_id (nodes g))
    then nodes g ++ [Node jcl_id jcl_node jcl_file None]
    else nodes g in
  Graph nodes' (edges g ++ [Edge jcl_id program_name (txt "executes")])
    (programs_with_jcl g) (programs_without_jcl g).

(** Body of [for program_info in mappings.get("cbl_files", []):]. *)
Definition add_program (g : graph) (pi : program_info) : graph :=
  let program_name := program pi in
  let g1 :=
    Graph (nodes g ++ [Node program_name program_node program_name
                         (Some (jcl_files pi))])
      (edges g) (programs_with_jcl g) (programs_without_jcl g) in
  match jcl_files pi with
  | _ :: _ =>
      foldl (add_jcl program_name)
        (Graph (nodes g1) (edges g1)
           (programs_with_jcl g1 ++ [program_name]) (programs_without_jcl g1))
        (jcl_files pi)
  | [] =>
      Graph (nodes g1) (edges g1) (programs_with_jcl g1)
        (programs_without_jcl g1 ++ [program_name])
  end.

(** The graph built by [generate_dependency_graph] from the mapping
    artifact's [cbl_files]. *)
Definition generate_dependency_graph (cbl_files : list program_info) : graph :=
  foldl add_program empty cbl_files.

Record summary := Summary {
  total_programs : nat;
  n_programs_with_jcl : nat;
  n_programs_without_jcl : nat;
  total_jcl_files : nat
}.

Definition summary_of (cbl_files : list program_info) (g : graph) : summary :=
  Summary (length cbl_files) (length (programs_with_jcl g))
    (length (programs_without_jcl g))
    (size (list_to_set (concat (jcl_files <$> cbl_files)) : gset str)).

(** The (identifier, type) pair of a node. *)
Definition key (n : node) : str * node_type := (id n, type n).

End DepGraph.

(** ** [smojol-jcl/python/jcl_parser_wrapper.py] *)

Module Wrapper.

(** The class of an exception instance, as the [except] clauses of
    [parse_jcl_file] tell them apart: a [FileNotFoundError], another
    subclass of [Exception], or a [BaseException] that is not an
    [Exception] ([KeyboardInterrupt], [SystemExit], [GeneratorExit]). *)
Inductive exn_class := FileNotFoundError | OtherException | NotException.

(** An exception instance: its class, [type(e).__name__] and [str(e)]. *)
Record exn := Exn {
  class : exn_class;
  type_name : str;
  message : str
}.

(** A computation that returns or raises. *)
Inductive result (A : Type) :=
| Ok (a : A)
| Raise (e : exn).
Global Arguments Ok {A} a.
Global Arguments Raise {A} e.

Definition bind {A B : Type} (m : result A) (f : A → result B) : result B :=
  match m with
  | Ok a => f a
  | Raise e => Raise e
  end.

Notation "x ←! m ; k" := (bind m (λ x, k))
  (at level 20, m at level 100, k at level 200, only parsing).

Section Wrapper.
(** The collaborators: the [jcl_parser] library, the file system, the
    [json] module and the standard output. *)
Context {parser parsed json : Type}.
Variable JCLParser : result parser.
Variable read_file : str → result str.
Variable parse_string : parser → str → result parsed.
(** [None]: the parsed object has no attribute [to_json].  [Some r]: it
    has one, and looking it up and calling it does [r]. *)
Variable to_json : parsed → option (result json).
(** [json.dumps] on the object that [to_json] returned and on the parsed
    object itself: either may be an object that the encoder refuses. *)
Variable dumps_json : json → result unit.
Variable dumps_parsed : parsed → result unit.
(** [print] of the encoded text. *)
Variable stdout_write : result unit.

Inductive value :=
| VStr (s : str)
| VJson (j : json)
| VParsed (p : parsed).

(** The [try] block of [parse_jcl_file]. *)
Definition parse_body (jcl_file_path : str) : result (list (str * value)) :=
  p ←! JCLParser;
  jcl_content ←! read_file jcl_file_path;
  parsed_jcl ←! parse_string p jcl_content;
  jcl ←! match to_json parsed_jcl with
         | Some r => j ←! r; Ok (VJson j)
         | None => Ok (VParsed parsed_jcl)
         end;
  Ok [(txt "status", VStr (txt "success"));
      (txt "file", VStr jcl_file_path);
      (txt "jcl", jcl)].

(** The two [except] clauses.  An exception that neither clause names
    leaves the function. *)
Definition handler (jcl_file_path : str) (e : exn) : result (list (str * value)) :=
  match class e with
  | FileNotFoundError =>
      Ok [(txt "status", VStr (txt "error"));
          (txt "error", VStr (txt "FILE_NOT_FOUND"));
          (txt "message", VStr (txt "JCL file not found: " ++ jcl_file_path))]
  | OtherException =>
      Ok [(txt "status", VStr (txt "error"));
          (txt "error", VStr (txt "PARSING_ERROR"));
          (txt "message", VStr (message e));
          (txt "type", VStr (type_name e))]
  | NotException => Raise e
  end.

Definition parse_jcl_file (jcl_file_path : str) : result (list (str * value)) :=
  match parse_body jcl_file_path with
  | Ok d => Ok d
  | Raise e => handler jcl_file_path e
  end.

(** [result["status"] == s] *)
Definition status_is (s : str) (result : list (str * value)) : bool :=
  match dict_get (txt "status") result with
  | Some (VStr s') => bool_decide (s' = s)
  | _ => false
  end.

(** [json.dumps] encodes the values of the dictionary in order; a string
    is always encoded. *)
Definition dumps_value (v : value) : result unit :=
  match v with
  | VStr _ => Ok tt
  | VJson j => dumps_json j
  | VParsed p => dumps_parsed p
  end.

Definition dumps (d : list (str * value)) : result unit :=
  foldr (λ kv r, _ ←! dumps_value kv.2; r) (Ok tt) d.

(** [print(json.dumps(d, indent=2))] *)
Definition print_json (d : list (str * value)) : result unit :=
  _ ←! dumps d; stdout_write.

(** How [main] ends: by its own [sys.exit(code)], after the dictionary
    was printed, or by an exception that nothing catches. *)
Inductive outcome :=
| Exit (printed : list (str * value)) (code : Z)
| Uncaught (e : exn).


Definition error_result : list (str * value) :=
  [(txt "status", VStr (txt "error"));
   (txt "error", VStr (txt "INVALID_ARGUMENTS"));
   (txt "message",
    VStr (txt "Usage: python jcl_parser_wrapper.py <jcl_file_path>"))].

(** [main], on [sys.argv]. *)
Definition main (argv : list str) : outcome :=
  match argv with
  | _ :: jcl_file_path :: _ =>
      match parse_jcl_file jcl_file_path with
      | Ok result =>
          match print_json result with
          | Ok _ =>
              Exit result (if status_is (txt "success") result then 0%Z else 1%Z)
          | Raise e => Uncaught e
          end
      | Raise e => Uncaught e
      end
  | _ =>
      match print_json error_result with
      | Ok _ => Exit error_result 1%Z
      | Raise e => Uncaught e
      end
  end.
End Wrapper.

End Wrapper.

(** ** [scripts/analyze_jcl_to_cobol.py]: the scan and the mapping artifact *)

Module Mapping.
Import Analyze.

(** [name.rfind(c)] counted from [pos]: the index of the last [c]. *)
Fixpoint rfind_from (c : ascii) (s : str) (pos : nat) : option nat :=
  match s with
  | [] => None
  | x :: s' =>
      match rfind_from c s' (S pos) with
      | Some i => Some i
      | None => if bool_decide (x = c) then Some pos else None
      end
  end.

(** [PurePath.stem]: the name up to its last dot, when that dot is neither
    the first nor the last character. *)
Definition stem (name : str) : str :=
  match rfind_from "."%char name 0 with
  | Some i =>
      if andb (0 <? i)%nat (i <? length name - 1)%nat then take i name else name
  | None => name
  end.

(** One path yielded by [Path(root_dir).rglob('*.cbl')]: the path, its
    final component [path.name] and whether [path.is_file()]. *)
Record entry := Entry { path : str; name : str; is_file : bool }.

(** Body of the loop of [find_cobol_files]. *)
Definition index_entry (cobol_index : gmap str str) (e : entry) : gmap str str :=
  if is_file e then <[upper (stem (name e)) := path e]> cobol_index
  else cobol_index.

(** [find_cobol_files], on the paths in the order [rglob] yields them. *)
Definition find_cobol_files (entries : list entry) : gmap str str :=
  foldl index_entry ∅ entries.

(** Body of [for jcl_file in jcl_files:], on the display name of the job
    and the text read from its file. *)
Definition scan_job (cobol_index : gmap str str) (s : scan) (job : str * str) : scan :=
  let '(jcl_name, jcl_content) := job in
  let programs := extract_pgm_from_jcl jcl_content in
  match programs with
  | [] => s
  | _ => foldl (scan_prog cobol_index jcl_name) s programs
  end.

(** The scan loop of [main]. *)
Definition scan_jobs (cobol_index : gmap str str) (jobs : list (str * str)) : scan :=
  foldl (scan_job cobol_index) scan0 jobs.

(** The order of Python on [str]: by code point, a proper prefix first. *)
Fixpoint str_leb (a b : str) : bool :=
  match a, b with
  | [], _ => true
  | _ :: _, [] => false
  | x :: a', y :: b' =>
      match (Char.code x ?= Char.code y)%N with
      | Lt => true
      | Eq => str_leb a' b'
      | Gt => false
      end
  end.

Definition str_le (a b : str) : Prop := str_leb a b = true.

Global Instance str_le_dec : RelDecision str_le.
Proof. intros a b. unfold str_le. apply _. Defined.

(** [sorted(d.keys())] *)
Definition sorted_keys (d : gmap str (list str)) : list str :=
  merge_sort str_le (elements (dom d)).

(** The ["cbl_files"] of [output_data]. *)
Definition cbl_files (s : scan) : list DepGraph.program_info :=
  (λ prog, DepGraph.ProgramInfo prog (default [] (cobol_to_jcl s !! prog)))
    <$> sorted_keys (cobol_to_jcl s).

(** [output_data]: the statistics and the program entries. *)
Definition output_data (s : scan) : stats * list DepGraph.program_info :=
  (st s, cbl_files s).

End Mapping.

(** ** Vocabulary of the statements *)

(** How many times [x] occurs in [l]. *)
Definition count {A : Type} `{EqDecision A} (x : A) (l : list A) : nat :=
  length (filter (λ y, y = x) l).

(** The [includes] edge from the copybook [c] to the program [p]. *)
Definition includes_edge (p c : str) : str * str * str :=
  (Aggregated.cpy_id c, Aggregated.pgm_id p, txt "includes").

(** Every identifier the graph body mentions: of a node, or at either end
    of an edge. *)
Definition mentioned (g : list Aggregated.stmt) : list str :=
  Aggregated.node_ids g ++
  ((λ e, e.1.1) <$> Aggregated.edges_of g) ++
  ((λ e, e.1.2) <$> Aggregated.edges_of g).

(** Where an identifier of the graph of program [p] can come from, given
    the typed files [tf] and the copybook list [cs]. *)
Definition origin (p : str)
    (tf : list (str * Aggregated.file_info * Aggregated.file_type))
    (cs : list str) (x : str) : Prop :=
  x = Aggregated.pgm_id p ∨
  (∃ n fi, (n, fi, Aggregated.INPUT) ∈ tf ∧ x = Aggregated.file_in_id n) ∨
  (∃ n fi, (n, fi, Aggregated.OUTPUT) ∈ tf ∧ x = Aggregated.file_out_id n) ∨
  (∃ n fi, (n, fi, Aggregated.EXTEND) ∈ tf ∧ x = Aggregated.file_ext_id n) ∨
  (∃ c, c ∈ cs ∧ x = Aggregated.cpy_id c) ∨
  x = txt "JCL_JOB".

(** *** What a pattern means

    [den ic r prev w rest caps]: the pattern [r] can match the word [w]
    when [prev] is the character before [w] and [rest] the text after it,
    closing the groups [caps] on the way.  This is the declarative reading
    of a pattern; [Re.exec] is the procedure that looks for such a [w]. *)

Definition lastc (prev : option ascii) (w : str) : option ascii :=
  match last w with Some c => Some c | None => prev end.

Fixpoint den (ic : bool) (r : Re.regex) (prev : option ascii) (w rest : str)
    (caps : list str) : Prop :=
  match r with
  | Re.Lit p => ∃ c, w = [c] ∧ Re.char_eq ic p c = true ∧ caps = []
  | Re.Plus k =>
      w ≠ [] ∧ Forall (λ c, Re.in_class ic k c = true) w ∧ caps = []
  | Re.Group r1 => ∃ caps1, den ic r1 prev w rest caps1 ∧ caps = caps1 ++ [w]
  | Re.WordBoundary => w = [] ∧ Re.at_boundary prev rest = true ∧ caps = []
  | Re.Cat r1 r2 =>
      ∃ w1 w2 c1 c2, w = w1 ++ w2 ∧
        den ic r1 prev w1 (w2 ++ rest) c1 ∧
        den ic r2 (lastc prev w1) w2 rest c2 ∧ caps = c1 ++ c2
  | Re.Eps => w = [] ∧ caps = []
  | Re.Any => ∃ c, w = [c] ∧ c ≠ Re.newline ∧ caps = []
  end.

(** The pattern occurs somewhere in the text. *)
Definition occurs (ic : bool) (r : Re.regex) (text : str) : Prop :=
  ∃ pre w post caps, text = pre ++ w ++ post ∧ den ic r (last pre) w post caps.

(** *** Open statements

    The words of a COBOL [OPEN] statement as the pattern
    [OPEN\s+<direction>\s+<file name>\b] reads them under
    [re.IGNORECASE]. *)

(** The same word up to the case of its letters. *)
Definition same_letters (u w : str) : Prop :=
  Char.lower_char <$> u = Char.lower_char <$> w.

(** A non-empty run of white space. *)
Definition blanks (ws : str) : Prop :=
  ws ≠ [] ∧ Forall (λ c, Char.is_space c = true) ws.

(** Somewhere in [text] stands [OPEN], white space, the direction word,
    white space and the file name, all in either case, and the name ends
    at a word boundary. *)
Definition open_statement (d : Aggregated.file_type) (name text : str) : Prop :=
  ∃ pre kw ws1 dw ws2 nm post,
    text = pre ++ kw ++ ws1 ++ dw ++ ws2 ++ nm ++ post ∧
    same_letters kw (txt "OPEN") ∧ blanks ws1 ∧
    same_letters dw (Aggregated.direction_word d) ∧ blanks ws2 ∧
    same_letters nm name ∧
    Re.at_boundary (last (ws2 ++ nm)) post = true.

(** *** Open statements, spelled out

    What it means that a program text opens a file, said without the
    pattern matcher and without the character tables of the model: the
    letters, the white space and the word characters are listed here. *)

(** The text is 7-bit ASCII. *)
Definition seven_bit (s : str) : bool :=
  forallb (λ c, (nat_of_ascii c <? 128)%nat) s.

Definition small_letters : str := txt "abcdefghijklmnopqrstuvwxyz".
Definition capital_letters : str := txt "ABCDEFGHIJKLMNOPQRSTUVWXYZ".
Definition digits : str := txt "0123456789".

(** The same character, or one letter in its two cases. *)
Definition same_letter (a b : ascii) : Prop :=
  a = b ∨ (a, b) ∈ zip small_letters capital_letters
        ∨ (b, a) ∈ zip small_letters capital_letters.

Definition same_word (u w : str) : Prop := Forall2 same_letter u w.

(** TAB, LF, VT, FF, CR, FS, GS, RS, US and the space. *)
Definition white_chars : str :=
  ascii_of_nat <$> [9; 10; 11; 12; 13; 28; 29; 30; 31; 32]%nat.

(** A non-empty run of white space. *)
Definition white_space (ws : str) : Prop :=
  ws ≠ [] ∧ ∀ c, c ∈ ws → c ∈ white_chars.

(** Letters, digits and the underscore. *)
Definition word_char (c : ascii) : Prop :=
  c ∈ small_letters ++ capital_letters ++ digits ++ txt "_".

Definition ends_in_word (w : str) : Prop :=
  ∃ c, last w = Some c ∧ word_char c.

Definition starts_with_word (w : str) : Prop :=
  ∃ c, head w = Some c ∧ word_char c.

(** Somewhere in [text] stands [OPEN], white space, the [keyword] of a
    direction, white space and the file [name], each word in either case
    of its letters; and the position after the name is the edge of a word:
    a word character stands on exactly one side of it. *)
Definition opened (keyword name text : str) : Prop :=
  ∃ pre kw ws1 dw ws2 nm post,
    text = pre ++ kw ++ ws1 ++ dw ++ ws2 ++ nm ++ post ∧
    same_word kw (txt "OPEN") ∧ white_space ws1 ∧
    same_word dw keyword ∧ white_space ws2 ∧ same_word nm name ∧
    (ends_in_word (ws2 ++ nm) ↔ ¬ starts_with_word post).

(** A name none of whose characters has a meaning in the pattern syntax. *)
Definition literal_name (name : str) : Prop :=
  Forall (λ c, c ∉ txt ".^$*+?{}[]\|()") name.

(** The identifiers of the nodes of a dependency graph. *)
Definition ids (g : DepGraph.graph) : list str :=
  DepGraph.id <$> DepGraph.nodes g.

(** An edge is anchored when both its ends are identifiers of nodes. *)
Definition anchored (ns : list DepGraph.node) (e : DepGraph.edge) : Prop :=
  DepGraph.source e ∈ DepGraph.id <$> ns ∧ DepGraph.target e ∈ DepGraph.id <$> ns.

(** The (identifier, type) pairs of the nodes are pairwise distinct and
    every program node belongs to one of the programs [seen] so far. *)
Definition keys_ok (g : DepGraph.graph) (seen : list str) : Prop :=
  NoDup (DepGraph.key <$> DepGraph.nodes g) ∧
  ∀ n, n ∈ DepGraph.nodes g → DepGraph.type n = DepGraph.program_node →
       DepGraph.id n ∈ seen.

(** The characters of [[A-Z0-9]]. *)
Definition upper_alnum (c : ascii) : bool := Char.is_upper c || Char.is_digit c.

(** A match object reports a successful attempt of the pattern somewhere
    in the text [s] that follows [prev], [pos] characters into the whole
    text. *)
Definition found_at (ic : bool) (r : Re.regex) (prev : option ascii) (s : str)
    (pos : nat) (m : Re.match_obj) : Prop :=
  ∃ pre s', s = pre ++ s' ∧ Re.m_start m = pos + length pre ∧
    Re.match_here ic r (lastc prev pre) s'
      = Some (Re.m_end m - Re.m_start m, Re.m_groups m).

(** *** The dependency graph in closed form *)

(** The [executes] edges of one entry of the mapping artifact, one for
    each of its JCL files, in the order of the list. *)
Definition executes_edges (pi : DepGraph.program_info) : list DepGraph.edge :=
  (λ j, DepGraph.Edge (DepGraph.jcl_id_of j) (DepGraph.program pi) (txt "executes"))
    <$> DepGraph.jcl_files pi.

(** The node of one entry of the mapping artifact. *)
Definition program_node_of (pi : DepGraph.program_info) : DepGraph.node :=
  DepGraph.Node (DepGraph.program pi) DepGraph.program_node (DepGraph.program pi)
    (Some (DepGraph.jcl_files pi)).

Definition is_program (n : DepGraph.node) : Prop :=
  DepGraph.type n = DepGraph.program_node.

Definition is_jcl (n : DepGraph.node) : Prop :=
  DepGraph.type n = DepGraph.jcl_node.

Definition has_jcl (pi : DepGraph.program_info) : Prop :=
  DepGraph.jcl_files pi ≠ [].

Definition dot : ascii := "."%char.

(** A job node stands for one of the JCL files [all_jcl] and is named
    after it. *)
Definition job_node_ok (all_jcl : list str) (n : DepGraph.node) : Prop :=
  DepGraph.id n = DepGraph.jcl_id_of (DepGraph.label n) ∧
  DepGraph.label n ∈ all_jcl.

Definition jobs_ok (all_jcl : list str) (g : DepGraph.graph) : Prop :=
  NoDup (DepGraph.id <$> filter is_jcl (DepGraph.nodes g)) ∧
  Forall (job_node_ok all_jcl) (filter is_jcl (DepGraph.nodes g)).

(** *** The scan in closed form *)

(** The references counted in a scan state. *)
Definition counted (s : Analyze.scan) : nat :=
  Analyze.found (Analyze.st s) + Analyze.system (Analyze.st s) +
  Analyze.missing (Analyze.st s).

(** The three outcomes of the classification, on an identifier that is in
    upper case already. *)
Definition resolved (cobol_index : gmap str str) (p : str) : Prop :=
  p ∈ dom cobol_index.
Definition utility (cobol_index : gmap str str) (p : str) : Prop :=
  (p ∉ dom cobol_index) ∧ p ∈ system_programs.
Definition unknown (cobol_index : gmap str str) (p : str) : Prop :=
  (p ∉ dom cobol_index) ∧ (p ∉ system_programs).

Global Instance resolved_dec ix p : Decision (resolved ix p).
Proof. unfold resolved. apply _. Defined.
Global Instance utility_dec ix p : Decision (utility ix p).
Proof. unfold utility. apply _. Defined.
Global Instance unknown_dec ix p : Decision (unknown ix p).
Proof. unfold unknown. apply _. Defined.

(** All the references of the corpus, job by job. *)
Definition references (jobs : list (str * str)) : list str :=
  concat ((λ job, extract_pgm_from_jcl job.2) <$> jobs).

(** No key of the dictionary is bound to the empty list. *)
Definition values_nonempty (d : gmap str (list str)) : Prop :=
  ∀ q l, d !! q = Some l → l ≠ [].

(** The jobs, in scan order, whose text invokes the program [p]; none
    when [p] is not in the index. *)
Definition jobs_of (cobol_index : gmap str str) (jobs : list (str * str))
    (p : str) : list str :=
  if decide (p ∈ dom cobol_index)
  then fst <$> filter (λ job, p ∈ extract_pgm_from_jcl job.2) jobs
  else [].

(** The files whose normalised stem is [k], in discovery order. *)
Definition files_named (k : str) (entries : list Mapping.entry) : list Mapping.entry :=
  filter (λ e, Mapping.is_file e = true ∧
               upper (Mapping.stem (Mapping.name e)) = k) entries.

(** *** File declarations *)

(** A pattern whose groups are all [(\S+)], and the number of its groups. *)
Fixpoint groups_nonspace (r : Re.regex) : bool :=
  match r with
  | Re.Group (Re.Plus Re.NotSpace) => true
  | Re.Group _ => false
  | Re.Cat r1 r2 => groups_nonspace r1 && groups_nonspace r2
  | _ => true
  end.

Fixpoint ngroups (r : Re.regex) : nat :=
  match r with
  | Re.Group _ => 1
  | Re.Cat r1 r2 => ngroups r1 + ngroups r2
  | _ => 0
  end.

(** A non-empty word without white space. *)
Definition word (w : str) : Prop :=
  w ≠ [] ∧ Forall (λ c, Char.is_space c = false) w.

(** A word as the extractor stores it: upper-cased. *)
Definition token (w : str) : Prop :=
  w ≠ [] ∧ Forall (λ c, Char.is_space c = false ∧ Char.is_lower c = false) w.

(** The name under which a declaration is filed and the information
    filed with it. *)
Definition declared_name (m : Re.match_obj) : str := upper (Re.group m 1).

Definition declared_info (text : str) (m : Re.match_obj) : Aggregated.file_info :=
  Aggregated.FileInfo (upper (Re.group m 2))
    (Aggregated.property Aggregated.org_pattern
       (Aggregated.section_text text (Re.m_end m)))
    (Aggregated.property Aggregated.access_pattern
       (Aggregated.section_text text (Re.m_end m))).

(** The declarations of the text, in order. *)
Definition declarations (text : str) : list Re.match_obj :=
  Re.finditer Aggregated.IGNORECASE Aggregated.select_pattern text.

(** The word [sub] stands somewhere in [s]. *)
Definition contains (sub s : str) : Prop := ∃ pre post, s = pre ++ sub ++ post.

(** ** Properties *)

Lemma elem_of_system_programs (p : str) :
  p ∈ system_programs ↔
    p = txt "IEFBR14" ∨ p = txt "IDCAMS" ∨ p = txt "SORT" ∨ p = txt "SDSF" ∨
    p = txt "IEBGENER" ∨ p = txt "IKJEFT01" ∨ p = txt "IKJEFT1B" ∨
    p = txt "FTP" ∨ p = txt "DFHCSDUP".
Proof.
  unfold system_programs.
  rewrite !elem_of_union, !elem_of_singleton. tauto.
Qed.

(** C9.  [is_system_program] is a function of its argument alone and
    returns [true] for exactly the nine identifiers IEFBR14, IDCAMS, SORT,
    SDSF, IEBGENER, IKJEFT01, IKJEFT1B, FTP and DFHCSDUP, [false] for
    every other string. *)
Theorem is_system_program_exact (p : str) :
  (is_system_program p = true ↔
     p ∈ [txt "IEFBR14"; txt "IDCAMS"; txt "SORT"; txt "SDSF"; txt "IEBGENER";
          txt "IKJEFT01"; txt "IKJEFT1B"; txt "FTP"; txt "DFHCSDUP"]) ∧
  (is_system_program p = false ↔
     p ∉ [txt "IEFBR14"; txt "IDCAMS"; txt "SORT"; txt "SDSF"; txt "IEBGENER";
          txt "IKJEFT01"; txt "IKJEFT1B"; txt "FTP"; txt "DFHCSDUP"]).
Proof.
  assert (H : is_system_program p = true ↔
     p ∈ [txt "IEFBR14"; txt "IDCAMS"; txt "SORT"; txt "SDSF"; txt "IEBGENER";
          txt "IKJEFT01"; txt "IKJEFT1B"; txt "FTP"; txt "DFHCSDUP"]).
  { unfold is_system_program. rewrite bool_decide_eq_true, elem_of_system_programs.
    rewrite !elem_of_cons, elem_of_nil. tauto. }
  split; [exact H|].
  rewrite <- H. destruct (is_system_program p); split; congruence.
Qed.

Section Classification.
Import Analyze.
Variable cobol_index : gmap str str.

Lemma classify_resolved (prog f : str) :
  classify cobol_index prog = Resolved f ↔ cobol_index !! upper prog = Some f.
Proof.
  unfold classify. destruct (cobol_index !! upper prog) as [g|].
  - split; congruence.
  - destruct (is_system_program (upper prog)); split; congruence.
Qed.

Lemma classify_system (prog p : str) :
  classify cobol_index prog = SystemUtility p ↔
    p = upper prog ∧ p ∈ system_programs ∧ cobol_index !! p = None.
Proof.
  unfold classify, is_system_program.
  destruct (cobol_index !! upper prog) as [g|] eqn:E.
  - split; [congruence|]. intros (-> & _ & ?). congruence.
  - case_bool_decide as Hs.
    + split; [intros [= <-]; auto | intros (-> & _); reflexivity].
    + split; [congruence | intros (-> & ? & _); contradiction].
Qed.

Lemma classify_unresolved (prog p : str) :
  classify cobol_index prog = Unresolved p ↔
    p = upper prog ∧ (p ∉ system_programs) ∧ cobol_index !! p = None.
Proof.
  unfold classify, is_system_program.
  destruct (cobol_index !! upper prog) as [g|] eqn:E.
  - split; [congruence|]. intros (-> & _ & ?). congruence.
  - case_bool_decide as Hs.
    + split; [congruence | intros (-> & ? & _); contradiction].
    + split; [intros [= <-]; auto | intros (-> & _); reflexivity].
Qed.

(** Each pass through the loop body bumps the one counter of the branch
    that [classify] names and leaves the other two alone. *)
Lemma scan_prog_counts (jcl_name : str) (s : scan) (prog : str) :
  st (scan_prog cobol_index jcl_name s prog) =
    match classify cobol_index prog with
    | Resolved _ => Stats (S (found (st s))) (system (st s)) (missing (st s))
    | SystemUtility _ => Stats (found (st s)) (S (system (st s))) (missing (st s))
    | Unresolved _ => Stats (found (st s)) (system (st s)) (S (missing (st s)))
    end.
Proof.
  unfold scan_prog, classify.
  destruct (cobol_index !! upper prog); [reflexivity|].
  destruct (is_system_program (upper prog)); reflexivity.
Qed.

End Classification.

(** C3.  For every invocation identifier and every program index, exactly
    one of Resolved, SystemUtility, Unresolved applies; Resolved holds
    exactly when the (upper-cased) identifier is a key of the index,
    SystemUtility exactly when it is in the fixed utility set and not a key
    of the index; and the scan step counts the reference once, in the
    counter of that outcome. *)
Theorem classification_exactly_one
    (cobol_index : gmap str str) (prog jcl_name : str) (s : Analyze.scan) :
  ((Analyze.is_resolved cobol_index prog ∧
      ¬ Analyze.is_system_utility cobol_index prog ∧
      ¬ Analyze.is_unresolved cobol_index prog) ∨
   (¬ Analyze.is_resolved cobol_index prog ∧
      Analyze.is_system_utility cobol_index prog ∧
      ¬ Analyze.is_unresolved cobol_index prog) ∨
   (¬ Analyze.is_resolved cobol_index prog ∧
      ¬ Analyze.is_system_utility cobol_index prog ∧
      Analyze.is_unresolved cobol_index prog)) ∧
  (Analyze.is_resolved cobol_index prog ↔ upper prog ∈ dom cobol_index) ∧
  (Analyze.is_system_utility cobol_index prog ↔
     upper prog ∈ system_programs ∧ upper prog ∉ dom cobol_index) ∧
  Analyze.st (Analyze.scan_prog cobol_index jcl_name s prog) =
    match Analyze.classify cobol_index prog with
    | Analyze.Resolved _ =>
        Analyze.Stats (S (Analyze.found (Analyze.st s)))
          (Analyze.system (Analyze.st s)) (Analyze.missing (Analyze.st s))
    | Analyze.SystemUtility _ =>
        Analyze.Stats (Analyze.found (Analyze.st s))
          (S (Analyze.system (Analyze.st s))) (Analyze.missing (Analyze.st s))
    | Analyze.Unresolved _ =>
        Analyze.Stats (Analyze.found (Analyze.st s))
          (Analyze.system (Analyze.st s)) (S (Analyze.missing (Analyze.st s)))
    end.
Proof.
  split; [|split; [|split]].
  - unfold Analyze.is_resolved, Analyze.is_system_utility, Analyze.is_unresolved.
    destruct (Analyze.classify cobol_index prog) as [f|p|p] eqn:E.
    + left. split; [eauto|]. split; intros [q Hq]; discriminate.
    + right; left. split; [|split]; [intros [q Hq]; discriminate|eauto|].
      intros [q Hq]; discriminate.
    + right; right. split; [|split]; [intros [q Hq]; discriminate| |eauto].
      intros [q Hq]; discriminate.
  - unfold Analyze.is_resolved. rewrite elem_of_dom. unfold is_Some.
    split; intros [f Hf]; exists f; apply classify_resolved; exact Hf.
  - unfold Analyze.is_system_utility. rewrite not_elem_of_dom. split.
    + intros [p Hp]. apply classify_system in Hp as (-> & ? & ?). auto.
    + intros [? ?]. exists (upper prog). apply classify_system. auto.
  - apply scan_prog_counts.
Qed.


(** ** The dependency graph of [generate_dependency_graph_json.py] *)

Section DepGraphFacts.
Import DepGraph.

Lemma has_id_spec (i : str) (ns : list node) :
  has_id i ns = true ↔ i ∈ id <$> ns.
Proof.
  unfold has_id. rewrite existsb_exists, list_elem_of_fmap.
  split.
  - intros (n & Hn & Hi). apply bool_decide_eq_true in Hi.
    exists n. split; [congruence | by apply list_elem_of_In].
  - intros (n & -> & Hn). exists n.
    split; [by apply list_elem_of_In | by apply bool_decide_eq_true].
Qed.

Lemma anchored_mono (ns ns' : list node) (e : edge) :
  id <$> ns ⊆ id <$> ns' → anchored ns e → anchored ns' e.
Proof. intros Hsub [? ?]. split; apply Hsub; assumption. Qed.

Lemma add_jcl_nodes_grow (p : str) (g : graph) (j : str) :
  ids g ⊆ ids (add_jcl p g j).
Proof.
  unfold ids, add_jcl; simpl.
  destruct (negb (has_id (jcl_id_of j) (nodes g))); [|done].
  rewrite fmap_app. intros x Hx. apply elem_of_app. by left.
Qed.

Lemma add_jcl_source (p : str) (g : graph) (j : str) :
  jcl_id_of j ∈ ids (add_jcl p g j).
Proof.
  unfold ids, add_jcl; simpl.
  destruct (has_id (jcl_id_of j) (nodes g)) eqn:E; simpl.
  - by apply has_id_spec.
  - rewrite fmap_app. apply elem_of_app. right. simpl. apply list_elem_of_here.
Qed.

Lemma add_jcl_anchored (p : str) (g : graph) (j : str) :
  p ∈ ids g → Forall (anchored (nodes g)) (edges g) →
  Forall (anchored (nodes (add_jcl p g j))) (edges (add_jcl p g j)).
Proof.
  intros Hp Hg.
  pose proof (add_jcl_nodes_grow p g j) as Hgrow.
  pose proof (add_jcl_source p g j) as Hsrc.
  assert (Hedges : edges (add_jcl p g j)
                   = edges g ++ [Edge (jcl_id_of j) p (txt "executes")])
    by reflexivity.
  rewrite Hedges. apply Forall_app. split.
  - eapply Forall_impl; [exact Hg|]. intros e. by apply anchored_mono.
  - constructor; [|constructor]. split; simpl; [exact Hsrc | by apply Hgrow].
Qed.

Lemma foldl_add_jcl_anchored (p : str) (js : list str) (g : graph) :
  p ∈ ids g → Forall (anchored (nodes g)) (edges g) →
  Forall (anchored (nodes (foldl (add_jcl p) g js)))
         (edges (foldl (add_jcl p) g js)).
Proof.
  revert g. induction js as [|j js IH]; intros g Hp Hg; simpl; [done|].
  apply IH.
  - by apply add_jcl_nodes_grow.
  - by apply add_jcl_anchored.
Qed.

Lemma add_program_anchored (g : graph) (pi : program_info) :
  Forall (anchored (nodes g)) (edges g) →
  Forall (anchored (nodes (add_program g pi))) (edges (add_program g pi)).
Proof.
  intros Hg. unfold add_program.
  set (ns := nodes g ++ [Node (program pi) program_node (program pi)
                           (Some (jcl_files pi))]).
  assert (Hp : program pi ∈ id <$> ns).
  { unfold ns. rewrite fmap_app. apply elem_of_app. right. apply list_elem_of_here. }
  assert (Hns : Forall (anchored ns) (edges g)).
  { eapply Forall_impl; [exact Hg|]. intros e. apply anchored_mono.
    unfold ns. rewrite fmap_app. intros x Hx. apply elem_of_app. by left. }
  destruct (jcl_files pi) as [|j js] eqn:Ej; simpl; [exact Hns|].
  apply (foldl_add_jcl_anchored (program pi) js
           (add_jcl (program pi) (Graph ns (edges g)
              (programs_with_jcl g ++ [program pi]) (programs_without_jcl g)) j)).
  - by apply add_jcl_nodes_grow.
  - by apply add_jcl_anchored.
Qed.

Lemma foldl_add_program_anchored (ps : list program_info) (g : graph) :
  Forall (anchored (nodes g)) (edges g) →
  Forall (anchored (nodes (foldl add_program g ps)))
         (edges (foldl add_program g ps)).
Proof.
  revert g. induction ps as [|pi ps IH]; intros g Hg; simpl; [done|].
  apply IH. by apply add_program_anchored.
Qed.

Lemma add_jcl_keys (p : str) (g : graph) (j : str) (seen : list str) :
keys_ok g seen → keys_ok (add_jcl p g j) seen.
Proof.
intros [Hnd Hprog]. unfold keys_ok, add_jcl; simpl.
destruct (has_id (jcl_id_of j) (nodes g)) eqn:E; simpl; [done|].
split.
- rewrite fmap_app. apply NoDup_app. split; [done|]. split.
  + intros k Hk Hk'. apply list_elem_of_singleton in Hk' as ->.
    apply list_elem_of_fmap in Hk as (n & Hkey & Hn).
    assert (has_id (jcl_id_of j) (nodes g) = true); [|congruence].
    apply has_id_spec. apply list_elem_of_fmap. exists n.
    split; [|done]. by injection Hkey.
  + apply NoDup_singleton.
- intros n [Hn|Hn]%elem_of_app Ht; [by apply Hprog|].
  apply list_elem_of_singleton in Hn as ->. discriminate Ht.
Qed.

Lemma foldl_add_jcl_keys (p : str) (js : list str) (g : graph) (seen : list str) :
keys_ok g seen → keys_ok (foldl (add_jcl p) g js) seen.
Proof.
revert g. induction js as [|j js IH]; intros g Hg; simpl; [done|].
apply IH. by apply add_jcl_keys.
Qed.

Lemma add_program_keys (g : graph) (pi : program_info) (seen : list str) :
keys_ok g seen → program pi ∉ seen →
keys_ok (add_program g pi) (program pi :: seen).
Proof.
intros [Hnd Hprog] Hnew.
assert (Hg1 : ∀ w wo,
  keys_ok (Graph (nodes g ++ [Node (program pi) program_node (program pi)
                                (Some (jcl_files pi))]) (edges g) w wo)
          (program pi :: seen)).
{ intros w wo. split; simpl.
  - rewrite fmap_app. apply NoDup_app. split; [done|]. split.
    + intros k Hk Hk'. apply list_elem_of_singleton in Hk' as ->.
      apply list_elem_of_fmap in Hk as (n & Hkey & Hn).
      injection Hkey as Hid Hty. apply Hnew. rewrite Hid. by apply Hprog.
    + apply NoDup_singleton.
  - intros n [Hn|Hn]%elem_of_app Ht.
    + apply elem_of_cons. right. by apply Hprog.
    + apply list_elem_of_singleton in Hn as ->. apply list_elem_of_here. }
unfold add_program. destruct (jcl_files pi) as [|j js] eqn:Ej.
- apply Hg1.
- apply foldl_add_jcl_keys. first [apply Hg1 | rewrite <- Ej; apply Hg1].
Qed.

Lemma foldl_add_program_keys (ps : list program_info) (g : graph) (seen : list str) :
keys_ok g seen → NoDup (program <$> ps) →
(∀ p, p ∈ program <$> ps → p ∉ seen) →
NoDup (key <$> nodes (foldl add_program g ps)).
Proof.
revert g seen. induction ps as [|pi ps IH]; intros g seen Hg Hnd Hfresh; simpl.
- by destruct Hg.
- rewrite fmap_cons in Hnd. apply NoDup_cons in Hnd as [Hpi Hnd].
  apply (IH _ (program pi :: seen)); [|done|].
  + apply add_program_keys; [done|]. apply Hfresh. apply list_elem_of_here.
  + intros p Hp [->|Hs]%elem_of_cons; [done|].
    apply (Hfresh p); [|done]. rewrite fmap_cons. by apply elem_of_cons; right.
Qed.

(** X7.  When the mapping artifact lists every program once, as the
    analysis pass writes it, no two nodes of the dependency graph share
    both identifier and type. *)
Lemma node_keys_unique (cbl_files : list program_info) :
NoDup (program <$> cbl_files) →
NoDup (key <$> nodes (generate_dependency_graph cbl_files)).
Proof.
intros Hnd. apply (foldl_add_program_keys cbl_files empty []); [|done|].
- split; [constructor|]. intros n Hn. by apply elem_of_nil in Hn.
- intros p _ Hp. by apply elem_of_nil in Hp.
Qed.

End DepGraphFacts.

(** C10.  In the graph built from any mapping artifact no edge dangles:
    for every edge there is a node in the nodes list whose id is the
    edge's source and a node whose id is the edge's target. *)
Theorem no_dangling_edge (cbl_files : list DepGraph.program_info) :
  let g := DepGraph.generate_dependency_graph cbl_files in
  Forall (λ e,
            (∃ n, n ∈ DepGraph.nodes g ∧ DepGraph.id n = DepGraph.source e) ∧
            (∃ n, n ∈ DepGraph.nodes g ∧ DepGraph.id n = DepGraph.target e))
         (DepGraph.edges g).
Proof.
  intros g.
  assert (H : Forall (anchored (DepGraph.nodes g)) (DepGraph.edges g)).
  { apply foldl_add_program_anchored. constructor. }
  eapply Forall_impl; [exact H|].
  intros e [Hs Ht].
  apply list_elem_of_fmap in Hs as (n & Hn & Hin).
  apply list_elem_of_fmap in Ht as (m & Hm & Him).
  split; [exists n | exists m]; auto.
Qed.

(** C5.  The mapping artifact of a job [PROGA.jcl] that runs the program
    [PROGA]: the graph holds the program node alone, the job has no node
    of its own, and the [executes] edge runs from the program to itself. *)
Theorem job_node_lost_to_program_id :
  let g := DepGraph.generate_dependency_graph
             [DepGraph.ProgramInfo (txt "PROGA") [txt "PROGA.jcl"]] in
  DepGraph.key <$> DepGraph.nodes g = [(txt "PROGA", DepGraph.program_node)] ∧
  ((txt "PROGA", DepGraph.jcl_node) ∉ DepGraph.key <$> DepGraph.nodes g) ∧
  DepGraph.edges g = [DepGraph.Edge (txt "PROGA") (txt "PROGA") (txt "executes")].
Proof.
  split; [reflexivity|]. split; [|reflexivity].
  intros H. apply list_elem_of_In in H. simpl in H.
  destruct H as [H|[]]. discriminate H.
Qed.

(** ** The wrapper around the JCL parser *)

Section WrapperFacts.
Import Wrapper.
Context {parser parsed json : Type}.
Variable JCLParser : result parser.
Variable read_file : str → result str.
Variable parse_string : parser → str → result parsed.
Variable to_json : parsed → option (result json).

Local Abbreviation body := (parse_body JCLParser read_file parse_string to_json).



End WrapperFacts.



(** ** The graph of [generate_graph_from_aggregated.py] *)

Section AggregatedFacts.
Import Aggregated.

Lemma nodes_of_app (a b : list stmt) : nodes_of (a ++ b) = nodes_of a ++ nodes_of b.
Proof.
induction a as [|[i l|t h l|n body] a IH]; simpl; [done|by f_equal|done|].
rewrite IH. by rewrite app_assoc.
Qed.

Lemma edges_of_app (a b : list stmt) : edges_of (a ++ b) = edges_of a ++ edges_of b.
Proof.
induction a as [|[i l|t h l|n body] a IH]; simpl; [done|done|by f_equal|done].
Qed.

Lemma cluster_edge_stmts (edge : str → str * str * str) (xs : list (str * file_info)) :
edges_of ((λ '(n, _), let '(a, b, l) := edge n in Edge a b l) <$> xs)
  = (λ '(n, _), edge n) <$> xs ∧
nodes_of ((λ '(n, _), let '(a, b, l) := edge n in Edge a b l) <$> xs) = [].
Proof.
induction xs as [|[n fi] xs [IHe IHn]]; simpl in *; [done|].
destruct (edge n) as [[a b] l] eqn:E. simpl. split; [f_equal; exact IHe | exact IHn].
Qed.

Lemma cluster_nodes name xs node_id edge :
nodes_of (cluster name xs node_id edge)
  = (λ '(n, fi), (node_id n, file_label n fi)) <$> xs.
Proof.
unfold cluster. destruct xs as [|x xs]; [done|].
rewrite nodes_of_app, (proj2 (cluster_edge_stmts edge (x :: xs))).
simpl. by rewrite app_nil_r.
Qed.

Lemma cluster_edges name xs node_id edge :
edges_of (cluster name xs node_id edge) = (λ '(n, _), edge n) <$> xs.
Proof.
unfold cluster. destruct xs as [|x xs]; [done|].
rewrite edges_of_app, (proj1 (cluster_edge_stmts edge (x :: xs))).
simpl. by rewrite app_nil_r.
Qed.

Lemma copybook_edge_stmts (p : str) (cs : list str) :
edges_of ((λ c, Edge (cpy_id c) (pgm_id p) (txt "includes")) <$> cs)
  = (λ c, (cpy_id c, pgm_id p, txt "includes")) <$> cs ∧
nodes_of ((λ c, Edge (cpy_id c) (pgm_id p) (txt "includes")) <$> cs) = [].
Proof.
induction cs as [|c cs [IHe IHn]]; simpl; [done|].
split; [f_equal; exact IHe | exact IHn].
Qed.

Lemma copybooks_edges (p : str) (cs : list str) :
edges_of (copybooks_part p cs)
  = (λ c, (cpy_id c, pgm_id p, txt "includes")) <$> cs.
Proof.
unfold copybooks_part. destruct cs as [|c0 cs0]; [done|].
rewrite edges_of_app, (proj1 (copybook_edge_stmts p (c0 :: cs0))).
simpl. by rewrite app_nil_r.
Qed.

Lemma copybooks_nodes (p : str) (cs : list str) :
nodes_of (copybooks_part p cs)
  = (λ c, (cpy_id c, txt "COPY" ++ [ascii_of_nat 10] ++ c)) <$> cs.
Proof.
unfold copybooks_part. destruct cs as [|c0 cs0]; [done|].
rewrite nodes_of_app, (proj2 (copybook_edge_stmts p (c0 :: cs0))).
simpl. by rewrite app_nil_r.
Qed.

(** What the type of each file is, once [typed_files] has gone through. *)
Lemma typed_files_spec (text : str) (files : list (str * file_info))
  (tf : list (str * file_info * file_type)) :
typed_files text files = Some tf →
∀ n fi d, (n, fi, d) ∈ tf ↔
  (n, fi) ∈ files ∧ extract_file_type_from_fd text n = Some d.
Proof.
unfold typed_files. intros H. apply mapM_Some in H.
induction H as [|[n0 fi0] y files tf Hy H IH]; intros n fi d.
- split; [intros Hin; inversion Hin | intros [Hin _]; inversion Hin].
- destruct (extract_file_type_from_fd text n0) as [d0|] eqn:E;
    simpl in Hy; [|discriminate]. injection Hy as <-.
  rewrite !elem_of_cons, IH. split.
  + intros [[= -> -> ->]|[? ?]]; [split; [by left|done] | split; [by right|done]].
  + intros [[[= -> ->]|Hin] Hd]; [left; congruence | right; done].
Qed.

Lemma elem_of_of_type (d : file_type) (tf : list (str * file_info * file_type))
  (n : str) (fi : file_info) :
(n, fi) ∈ of_type d tf ↔ (n, fi, d) ∈ tf.
Proof.
unfold of_type. rewrite list_elem_of_omap. split.
- intros ([[n' fi'] d'] & Hin & Hx). destruct (decide (d' = d)); [|discriminate].
  injection Hx as -> ->. by subst.
- intros Hin. exists (n, fi, d). split; [done|].
  destruct (decide (d = d)); [done|contradiction].
Qed.

End AggregatedFacts.

Section AggregatedGraph.
Import Aggregated.

Lemma create_graph_inv (p : str) (data : aggregated) (g : list stmt) (st : stats) :
create_graph_from_aggregated_json p data = Some (g, st) →
∃ tf, typed_files (text data) (extract_files_from_cobol_text (text data)) = Some tf ∧
  nodes_of g =
    [(pgm_id p, pgm_label p)] ++
    ((λ '(n, fi), (file_in_id n, file_label n fi)) <$> of_type INPUT tf) ++
    ((λ '(n, fi), (file_out_id n, file_label n fi)) <$> of_type OUTPUT tf) ++
    ((λ '(n, fi), (file_ext_id n, file_label n fi)) <$> of_type EXTEND tf) ++
    ((λ c, (cpy_id c, txt "COPY" ++ [ascii_of_nat 10] ++ c)) <$> copybooks data) ++
    nodes_of (jcl_part p (jclExecutionContext data)) ∧
  edges_of g =
    ((λ '(n, _), (file_in_id n, pgm_id p, txt "READ")) <$> of_type INPUT tf) ++
    ((λ '(n, _), (pgm_id p, file_out_id n, txt "WRITE")) <$> of_type OUTPUT tf) ++
    ((λ '(n, _), (pgm_id p, file_ext_id n, txt "EXTEND")) <$> of_type EXTEND tf) ++
    ((λ c, (cpy_id c, pgm_id p, txt "includes")) <$> copybooks data) ++
    edges_of (jcl_part p (jclExecutionContext data)).
Proof.
unfold create_graph_from_aggregated_json. intros H.
destruct (typed_files (text data) (extract_files_from_cobol_text (text data)))
  as [tf|] eqn:Etf; simpl in H; [|discriminate].
injection H as <- _. exists tf. split; [reflexivity|]. split.
- change (nodes_of (?n :: ?r)) with (nodes_of [n] ++ nodes_of r).
  unfold files_part.
  rewrite !nodes_of_app, !cluster_nodes, copybooks_nodes.
  rewrite <- !app_assoc. reflexivity.
- change (edges_of (?n :: ?r)) with (edges_of r).
  unfold files_part.
  rewrite !edges_of_app, !cluster_edges, copybooks_edges.
  rewrite <- !app_assoc. reflexivity.
Qed.

End AggregatedGraph.

Section Counting.
Context {A B : Type} `{EqDecision A} `{EqDecision B}.

Lemma count_app (x : A) (l k : list A) : count x (l ++ k) = count x l + count x k.
Proof. unfold count. by rewrite filter_app, length_app. Qed.

Lemma count_absent (x : A) (l : list A) : x ∉ l → count x l = 0.
Proof.
unfold count. induction l as [|y l IH]; intros Hx; [done|].
apply not_elem_of_cons in Hx as [Hne Hx].
rewrite filter_cons. destruct (decide (y = x)); [congruence | by apply IH].
Qed.

Lemma count_fmap_inj (f : A → B) (x : A) (l : list A) :
Inj (=) (=) f → count (f x) (f <$> l) = count x l.
Proof.
intros Hf. unfold count. induction l as [|y l IH]; [done|].
rewrite fmap_cons, !filter_cons.
destruct (decide (f y = f x)) as [E|E], (decide (y = x)) as [E'|E']; simpl.
- by rewrite IH.
- by apply Hf in E.
- by subst.
- exact IH.
Qed.

End Counting.

Section IncludesEdges.
Import Aggregated.

Global Instance cpy_id_inj : Inj (=) (=) cpy_id.
Proof. intros a b H. unfold cpy_id in H. by apply app_inv_head in H. Qed.

Lemma includes_edge_inj (p : str) : Inj (=) (=) (includes_edge p).
Proof.
intros a b H. unfold includes_edge, cpy_id in H. by injection H as H.
Qed.

Lemma label_of_elem_fmap {X : Type} (f : X → str * str * str) (l : str)
  (xs : list X) (e : str * str * str) :
(∀ x, (f x).2 = l) → e ∈ f <$> xs → e.2 = l.
Proof. intros Hf (x & -> & _)%list_elem_of_fmap. apply Hf. Qed.

Lemma count_other_label {X : Type} (f : X → str * str * str) (l : str)
  (xs : list X) (e : str * str * str) :
(∀ x, (f x).2 = l) → e.2 ≠ l → count e (f <$> xs) = 0.
Proof.
intros Hf Hne. apply count_absent. intros Hin.
apply Hne. by eapply label_of_elem_fmap.
Qed.

Lemma count_includes_jcl (p c : str) (ctx : option (option str)) :
count (includes_edge p c) (edges_of (jcl_part p ctx)) = 0.
Proof.
destruct ctx as [job|]; [|reflexivity].
apply count_absent. simpl. intros Hin.
apply list_elem_of_singleton in Hin. unfold includes_edge in Hin.
injection Hin as _ _ Hl. vm_compute in Hl. discriminate Hl.
Qed.

End IncludesEdges.

(** C2 (as the script has it).  The graph holds one [includes] edge from a
    copybook to the program for each occurrence of the copybook in the
    program's copybook list: edges are not merged. *)
Theorem includes_edge_per_inclusion
    (p : str) (data : Aggregated.aggregated)
    (g : list Aggregated.stmt) (st : Aggregated.stats) (c : str) :
  Aggregated.create_graph_from_aggregated_json p data = Some (g, st) →
  count (includes_edge p c) (Aggregated.edges_of g)
    = count c (Aggregated.copybooks data).
Proof.
  intros H. apply create_graph_inv in H as (tf & _ & _ & ->).
  rewrite !count_app, count_includes_jcl.
  rewrite (count_other_label _ (txt "READ")),
          (count_other_label _ (txt "WRITE")),
          (count_other_label _ (txt "EXTEND")); simpl;
    try (by intros [? ?]); try (intros E; vm_compute in E; discriminate E).
  rewrite Nat.add_0_r.
  exact (count_fmap_inj (includes_edge p) c _ (includes_edge_inj p)).
Qed.

(** C2, witness: a program that copies CPYA once and CPYB once. *)
Lemma includes_edge_per_inclusion_witness :
  ∃ g st,
    Aggregated.create_graph_from_aggregated_json (txt "P")
      (Aggregated.Aggregated [] [txt "CPYA"; txt "CPYB"] None) = Some (g, st) ∧
    count (includes_edge (txt "P") (txt "CPYA")) (Aggregated.edges_of g)
      = count (txt "CPYA") [txt "CPYA"; txt "CPYB"].
Proof.
  eexists _, _. split; [reflexivity|].
  exact (includes_edge_per_inclusion (txt "P")
           (Aggregated.Aggregated [] [txt "CPYA"; txt "CPYB"] None)
           _ _ (txt "CPYA") eq_refl).
Defined.

(** C2, counterexample: a program whose copybook list names CPYA twice
    gets two [includes] edges from CPYA, not one. *)
Lemma includes_edge_twice :
  ∃ g st,
    Aggregated.create_graph_from_aggregated_json (txt "P")
      (Aggregated.Aggregated [] [txt "CPYA"; txt "CPYA"] None) = Some (g, st) ∧
    count (includes_edge (txt "P") (txt "CPYA")) (Aggregated.edges_of g) = 2.
Proof. eexists _, _. split; reflexivity. Qed.

Section FileNodes.
Import Aggregated.

Lemma mentioned_origin (p : str) (data : aggregated) (g : list stmt) (st : stats)
  (tf : list (str * file_info * file_type)) (x : str) :
create_graph_from_aggregated_json p data = Some (g, st) →
typed_files (text data) (extract_files_from_cobol_text (text data)) = Some tf →
x ∈ mentioned g → origin p tf (copybooks data) x.
Proof.
intros H Htf. apply create_graph_inv in H as (tf' & Htf' & Hn & He).
assert (tf' = tf) as -> by congruence.
unfold mentioned, node_ids. rewrite Hn, He. clear Hn He.
assert (Hj : ∀ y,
  y ∈ fst <$> nodes_of (jcl_part p (jclExecutionContext data)) ∨
  y ∈ (λ e, e.1.1) <$> edges_of (jcl_part p (jclExecutionContext data)) ∨
  y ∈ (λ e, e.1.2) <$> edges_of (jcl_part p (jclExecutionContext data)) →
  y = pgm_id p ∨ y = txt "JCL_JOB").
{ intros y. destruct (jclExecutionContext data) as [job|]; simpl.
  - rewrite !list_elem_of_singleton. tauto.
  - rewrite !elem_of_nil. tauto. }
rewrite !fmap_app, !elem_of_app, <- !list_fmap_compose.
unfold origin.
intros [Hx|[Hx|Hx]].
- destruct Hx as [Hx|[Hx|[Hx|[Hx|[Hx|Hx]]]]].
  + apply list_elem_of_singleton in Hx. by left.
  + apply list_elem_of_fmap in Hx as ([n fi] & -> & Hin).
    apply elem_of_of_type in Hin. right; left. eauto.
  + apply list_elem_of_fmap in Hx as ([n fi] & -> & Hin).
    apply elem_of_of_type in Hin. right; right; left. eauto.
  + apply list_elem_of_fmap in Hx as ([n fi] & -> & Hin).
    apply elem_of_of_type in Hin. right; right; right; left. eauto.
  + apply list_elem_of_fmap in Hx as (c & -> & Hin).
    right; right; right; right; left. eauto.
  + destruct (Hj x) as [->| ->]; [by left|by left|tauto].
- destruct Hx as [Hx|[Hx|[Hx|[Hx|Hx]]]].
  + apply list_elem_of_fmap in Hx as ([n fi] & -> & Hin).
    apply elem_of_of_type in Hin. right; left. eauto.
  + apply list_elem_of_fmap in Hx as ([n fi] & -> & Hin). by left.
  + apply list_elem_of_fmap in Hx as ([n fi] & -> & Hin). by left.
  + apply list_elem_of_fmap in Hx as (c & -> & Hin).
    right; right; right; right; left. eauto.
  + destruct (Hj x) as [->| ->]; [right; by left|by left|tauto].
- destruct Hx as [Hx|[Hx|[Hx|[Hx|Hx]]]].
  + apply list_elem_of_fmap in Hx as ([n fi] & -> & Hin). by left.
  + apply list_elem_of_fmap in Hx as ([n fi] & -> & Hin).
    apply elem_of_of_type in Hin. right; right; left. eauto.
  + apply list_elem_of_fmap in Hx as ([n fi] & -> & Hin).
    apply elem_of_of_type in Hin. right; right; right; left. eauto.
  + apply list_elem_of_fmap in Hx as (c & -> & Hin). by left.
  + destruct (Hj x) as [->| ->]; [right; by right|by left|tauto].
Qed.

Lemma typed_files_total (text : str) (files : list (str * file_info))
  (tf : list (str * file_info * file_type)) (n : str) (fi : file_info) :
typed_files text files = Some tf → (n, fi) ∈ files →
∃ d, extract_file_type_from_fd text n = Some d ∧ (n, fi, d) ∈ tf.
Proof.
intros Htf Hin.
assert (H := Htf). unfold typed_files in H. apply mapM_Some in H.
induction H as [|[n0 fi0] y files tf Hy H IH] in Hin, Htf |- *.
- inversion Hin.
- assert (∃ d, extract_file_type_from_fd text n = Some d) as [d Hd].
  { apply elem_of_cons in Hin as [[= -> ->]|Hin].
    - destruct (extract_file_type_from_fd text n0); [eauto|discriminate].
    - clear Htf IH Hy. induction H as [|[n1 fi1] y1 files tf Hy1 H IH].
      + inversion Hin.
      + apply elem_of_cons in Hin as [[= -> ->]|Hin]; [|by apply IH].
        destruct (extract_file_type_from_fd text n1); [eauto|discriminate]. }
  exists d. split; [done|].
  by apply (typed_files_spec text _ _ Htf).
Qed.

Ltac clash H :=
unfold file_in_id, file_out_id, file_ext_id, pgm_id, cpy_id in H;
vm_compute in H; first [discriminate H | injection H as H].

Lemma unknown_not_mentioned (p : str) (data : aggregated) (g : list stmt)
  (st : stats) (f : str) :
create_graph_from_aggregated_json p data = Some (g, st) →
extract_file_type_from_fd (text data) f = Some UNKNOWN →
(file_in_id f ∉ mentioned g) ∧ (file_out_id f ∉ mentioned g) ∧
(file_ext_id f ∉ mentioned g).
Proof.
intros H Hf.
destruct (create_graph_inv p data g st H) as (tf & Htf & _).
pose proof (typed_files_spec _ _ _ Htf) as Hspec.
pose proof (λ x, mentioned_origin p data g st tf x H Htf) as Ho.
assert (Hno : ∀ n fi d, (n, fi, d) ∈ tf → n = f → d = UNKNOWN).
{ intros n fi d Hin ->. apply Hspec in Hin as [_ Hd]. congruence. }
split; [|split]; intros Hm; apply Ho in Hm;
  destruct Hm as [E|[(n & fi & Hin & E)|[(n & fi & Hin & E)|
                  [(n & fi & Hin & E)|[(c & _ & E)|E]]]]];
  try (clash E; fail);
  clash E; symmetry in E; apply (Hno _ _ _ Hin) in E; discriminate E.
Qed.

End FileNodes.

(** C1 (as the script has it).  A declared file gets a File node, and its
    directional edge, exactly when its I/O direction is INPUT, OUTPUT or
    EXTEND; a file whose direction is UNKNOWN is mentioned nowhere in the
    graph, neither as a node nor at the end of an edge. *)
Theorem file_node_unless_unknown
    (p : str) (data : Aggregated.aggregated)
    (g : list Aggregated.stmt) (st : Aggregated.stats)
    (f : str) (fi : Aggregated.file_info) :
  Aggregated.create_graph_from_aggregated_json p data = Some (g, st) →
  (f, fi) ∈ Aggregated.extract_files_from_cobol_text (Aggregated.text data) →
  ∃ d, Aggregated.extract_file_type_from_fd (Aggregated.text data) f = Some d ∧
    match d with
    | Aggregated.INPUT =>
        (Aggregated.file_in_id f, Aggregated.file_label f fi)
          ∈ Aggregated.nodes_of g ∧
        (Aggregated.file_in_id f, Aggregated.pgm_id p, txt "READ")
          ∈ Aggregated.edges_of g
    | Aggregated.OUTPUT =>
        (Aggregated.file_out_id f, Aggregated.file_label f fi)
          ∈ Aggregated.nodes_of g ∧
        (Aggregated.pgm_id p, Aggregated.file_out_id f, txt "WRITE")
          ∈ Aggregated.edges_of g
    | Aggregated.EXTEND =>
        (Aggregated.file_ext_id f, Aggregated.file_label f fi)
          ∈ Aggregated.nodes_of g ∧
        (Aggregated.pgm_id p, Aggregated.file_ext_id f, txt "EXTEND")
          ∈ Aggregated.edges_of g
    | Aggregated.UNKNOWN =>
        (Aggregated.file_in_id f ∉ mentioned g) ∧
        (Aggregated.file_out_id f ∉ mentioned g) ∧
        (Aggregated.file_ext_id f ∉ mentioned g)
    end.
Proof.
  intros H Hin.
  destruct (create_graph_inv p data g st H) as (tf & Htf & Hn & He).
  destruct (typed_files_total _ _ _ _ _ Htf Hin) as (d & Hd & Hdin).
  exists d. split; [exact Hd|].
  apply elem_of_of_type in Hdin.
  destruct d.
  - rewrite Hn, He. split.
    + rewrite !elem_of_app. right; left.
      apply list_elem_of_fmap. by exists (f, fi).
    + rewrite !elem_of_app. left.
      apply list_elem_of_fmap. by exists (f, fi).
  - rewrite Hn, He. split.
    + rewrite !elem_of_app. right; right; left.
      apply list_elem_of_fmap. by exists (f, fi).
    + rewrite !elem_of_app. right; left.
      apply list_elem_of_fmap. by exists (f, fi).
  - rewrite Hn, He. split.
    + rewrite !elem_of_app. right; right; right; left.
      apply list_elem_of_fmap. by exists (f, fi).
    + rewrite !elem_of_app. right; right; left.
      apply list_elem_of_fmap. by exists (f, fi).
  - by apply (unknown_not_mentioned p data g st).
Qed.

(** C1, witness: INFILE is declared and opened for input. *)
Lemma file_node_unless_unknown_witness :
  ∃ g st fi,
    Aggregated.create_graph_from_aggregated_json (txt "P")
      (Aggregated.Aggregated
         (txt "SELECT INFILE ASSIGN TO DD1. OPEN INPUT INFILE.") [] None)
      = Some (g, st) ∧
    (txt "INFILE", fi) ∈
      Aggregated.extract_files_from_cobol_text
        (txt "SELECT INFILE ASSIGN TO DD1. OPEN INPUT INFILE.") ∧
    (Aggregated.file_in_id (txt "INFILE"), Aggregated.file_label (txt "INFILE") fi)
      ∈ Aggregated.nodes_of g.
Proof.
  eexists _, _, _.
  split; [reflexivity|]. split; [apply list_elem_of_here|].
  destruct (file_node_unless_unknown (txt "P")
              (Aggregated.Aggregated
                 (txt "SELECT INFILE ASSIGN TO DD1. OPEN INPUT INFILE.") [] None)
              _ _ (txt "INFILE") _ eq_refl (list_elem_of_here _ _))
    as (d & Hd & Hg).
  vm_compute in Hd. injection Hd as <-. exact (proj1 Hg).
Defined.

(** C1, counterexample: the file F is declared and never opened; its
    direction is UNKNOWN and the graph holds the program node and nothing
    else, so no File node stands for F. *)
Lemma unknown_file_has_no_node :
  ∃ g st fi,
    Aggregated.create_graph_from_aggregated_json (txt "P")
      (Aggregated.Aggregated (txt "SELECT F ASSIGN TO DD1.") [] None)
      = Some (g, st) ∧
    (txt "F", fi) ∈
      Aggregated.extract_files_from_cobol_text (txt "SELECT F ASSIGN TO DD1.") ∧
    Aggregated.extract_file_type_from_fd (txt "SELECT F ASSIGN TO DD1.") (txt "F")
      = Some Aggregated.UNKNOWN ∧
    Aggregated.node_ids g = [Aggregated.pgm_id (txt "P")] ∧
    Aggregated.edges_of g = [].
Proof.
  eexists _, _, _.
  split; [reflexivity|]. split; [apply list_elem_of_here|].
  split; [reflexivity|]. split; reflexivity.
Qed.

(** ** The matcher against the meaning of patterns *)

Section Matcher.
Import Re.
Context {A : Type}.
Variable ic : bool.

Lemma lastc_app (prev : option ascii) (w1 w2 : str) :
lastc (lastc prev w1) w2 = lastc prev (w1 ++ w2).
Proof.
unfold lastc. destruct w2 as [|c w2] using rev_ind.
- by rewrite app_nil_r.
- rewrite app_assoc, !last_snoc. done.
Qed.

Lemma lastc_None (w : str) : lastc None w = last w.
Proof. unfold lastc. by destruct (last w). Qed.

Lemma lastc_cons (prev : option ascii) (c : ascii) (w : str) :
lastc prev (c :: w) = lastc (Some c) w.
Proof. exact (eq_sym (lastc_app prev [c] w)). Qed.

Lemma plus_class_sound (k : cclass) (s : str)
  (K : option ascii → str → option A) (a : A) :
plus_class ic k s K = Some a →
∃ w rest, s = w ++ rest ∧ w ≠ [] ∧
  Forall (λ c, in_class ic k c = true) w ∧ K (last w) rest = Some a.
Proof.
revert a. induction s as [|c s IH]; intros a H; simpl in H; [discriminate|].
destruct (in_class ic k c) eqn:Ec; [|discriminate].
destruct (plus_class ic k s K) as [a'|] eqn:Ep.
- injection H as ->. destruct (IH a eq_refl) as (w & rest & -> & Hw & Hall & HK).
  exists (c :: w), rest. split; [done|]. split; [done|]. split; [by constructor|].
  destruct w; [done|exact HK].
- exists [c], s. split; [done|]. split; [done|]. split; [|exact H].
  by repeat constructor.
Qed.

Lemma plus_class_complete (k : cclass) (w rest : str)
  (K : option ascii → str → option A) :
w ≠ [] → Forall (λ c, in_class ic k c = true) w →
is_Some (K (last w) rest) → is_Some (plus_class ic k (w ++ rest) K).
Proof.
induction w as [|c w IH]; intros Hne Hall HK; [done|].
apply Forall_cons in Hall as [Hc Hall]. simpl. rewrite Hc.
destruct w as [|c' w].
- simpl in *. destruct (plus_class ic k rest K); [eauto|exact HK].
- destruct (IH ltac:(done) Hall HK) as [a ->]. eauto.
Qed.

Lemma exec_sound (r : regex) (prev : option ascii) (s : str) (caps : list str)
  (K : option ascii → str → list str → option A) (a : A) :
exec ic r prev s caps K = Some a →
∃ w rest caps', s = w ++ rest ∧ den ic r prev w rest caps' ∧
  K (lastc prev w) rest (caps ++ caps') = Some a.
Proof.
revert prev s caps K a.
induction r as [p|k|r1 IH1| |r1 IH1 r2 IH2| |]; intros prev s caps K a H; simpl in H.
- destruct s as [|c s]; [discriminate|].
  destruct (char_eq ic p c) eqn:E; [|discriminate].
  exists [c], s, []. rewrite app_nil_r. split; [done|]. split; [|exact H].
  simpl. eauto.
- apply plus_class_sound in H as (w & rest & -> & Hne & Hall & HK).
  exists w, rest, []. rewrite app_nil_r. split; [done|]. split; [done|].
  unfold lastc. destruct (last w) eqn:El; [exact HK|].
  apply last_None in El. contradiction.
- apply IH1 in H as (w & rest & caps1 & -> & Hd & HK).
  exists w, rest, (caps1 ++ [w]). split; [done|]. split; [simpl; eauto|].
  rewrite length_app, Nat.add_sub, take_app_length in HK.
  by rewrite app_assoc.
- destruct (at_boundary prev s) eqn:E; [|discriminate].
  exists [], s, []. rewrite app_nil_r. by repeat split.
- apply IH1 in H as (w1 & rest1 & c1 & -> & Hd1 & H).
  apply IH2 in H as (w2 & rest & c2 & -> & Hd2 & H).
  exists (w1 ++ w2), rest, (c1 ++ c2). split; [by rewrite app_assoc|].
  split; [simpl; by exists w1, w2, c1, c2|].
  by rewrite <- lastc_app, app_assoc.
- exists [], s, []. rewrite app_nil_r. by repeat split.
- destruct s as [|c s]; [discriminate|].
  case_bool_decide as Hc; [discriminate|].
  exists [c], s, []. rewrite app_nil_r. split; [done|]. split; [|exact H].
  simpl. eauto.
Qed.

Lemma exec_complete (r : regex) (prev : option ascii) (w rest : str)
  (caps' : list str) (K : option ascii → str → list str → option A) :
den ic r prev w rest caps' →
(∀ caps, is_Some (K (lastc prev w) rest caps)) →
∀ caps, is_Some (exec ic r prev (w ++ rest) caps K).
Proof.
revert prev w rest caps' K.
induction r as [p|k|r1 IH1| |r1 IH1 r2 IH2| |];
  intros prev w rest caps' K Hd HK caps; simpl in Hd |- *.
- destruct Hd as (c & -> & Hc & _). simpl. rewrite Hc. apply HK.
- destruct Hd as (Hne & Hall & _).
  apply plus_class_complete; [done|done|].
  specialize (HK caps). unfold lastc in HK.
  destruct (last w) eqn:El; [exact HK|].
  apply last_None in El. contradiction.
- destruct Hd as (caps1 & Hd & _).
  eapply IH1; [exact Hd|]. intros caps0. apply HK.
- destruct Hd as (-> & Hb & _). simpl. rewrite Hb. apply HK.
- destruct Hd as (w1 & w2 & c1 & c2 & -> & Hd1 & Hd2 & _).
  rewrite <- app_assoc.
  eapply IH1; [exact Hd1|]. intros caps0.
  eapply IH2; [exact Hd2|]. intros caps1.
  rewrite lastc_app. apply HK.
- destruct Hd as (-> & _). apply HK.
- destruct Hd as (c & -> & Hc & _). simpl.
  rewrite bool_decide_eq_false_2 by done. apply HK.
Qed.

End Matcher.

Section Searching.
Import Re.
Variable ic : bool.
Variable r : regex.

Lemma match_here_sound (prev : option ascii) (s : str) (n : nat) (caps : list str) :
match_here ic r prev s = Some (n, caps) →
∃ w rest, s = w ++ rest ∧ n = length w ∧ den ic r prev w rest caps.
Proof.
unfold match_here. intros H.
apply exec_sound in H as (w & rest & caps' & -> & Hd & H).
injection H as <- <-. exists w, rest.
by rewrite length_app, Nat.add_sub.
Qed.

Lemma match_here_complete (prev : option ascii) (w rest : str) (caps : list str) :
den ic r prev w rest caps → is_Some (match_here ic r prev (w ++ rest)).
Proof.
intros Hd. unfold match_here.
eapply exec_complete; [exact Hd|]. intros caps0. eauto.
Qed.

Lemma found_here (prev : option ascii) (s : str) (pos n : nat) (caps : list str) :
match_here ic r prev s = Some (n, caps) →
found_at ic r prev s pos (Match pos (pos + n) caps).
Proof.
intros H. exists [], s. simpl.
rewrite Nat.add_0_r, Nat.add_comm, Nat.add_sub. by repeat split.
Qed.

Lemma found_step (prev : option ascii) (c : ascii) (s : str) (pos : nat)
  (m : match_obj) :
found_at ic r (Some c) s (S pos) m → found_at ic r prev (c :: s) pos m.
Proof.
intros (pre & s' & -> & Hs & Hm).
exists (c :: pre), s'. rewrite lastc_cons. simpl.
repeat split; [lia|done].
Qed.

Lemma search_from_eq (s : str) (prev : option ascii) (pos : nat) :
search_from ic r prev s pos =
  match match_here ic r prev s with
  | Some (n, caps) => Some (Match pos (pos + n) caps)
  | None =>
      match s with
      | c :: s' => search_from ic r (Some c) s' (S pos)
      | [] => None
      end
  end.
Proof. by destruct s. Qed.

Lemma search_from_sound (s : str) (prev : option ascii) (pos : nat) (m : match_obj) :
search_from ic r prev s pos = Some m → found_at ic r prev s pos m.
Proof.
revert prev pos. induction s as [|c s IH]; intros prev pos H; simpl in H.
- destruct (match_here ic r prev []) as [[n caps]|] eqn:E; [|discriminate].
  injection H as <-. by apply found_here.
- destruct (match_here ic r prev (c :: s)) as [[n caps]|] eqn:E.
  + injection H as <-. by apply found_here.
  + apply found_step. by apply IH.
Qed.

Lemma search_from_complete (pre w rest : str) (prev : option ascii) (pos : nat)
  (caps : list str) :
den ic r (lastc prev pre) w rest caps →
is_Some (search_from ic r prev (pre ++ w ++ rest) pos).
Proof.
revert prev pos. induction pre as [|c pre IH]; intros prev pos Hd.
- change (lastc prev []) with prev in Hd.
  apply match_here_complete in Hd as [[n caps'] E].
  rewrite app_nil_l, search_from_eq, E. eauto.
- rewrite lastc_cons in Hd. simpl.
  destruct (match_here ic r prev (c :: pre ++ w ++ rest)) as [[n caps']|];
    [eauto|]. by apply IH.
Qed.

Lemma finditer_from_sound (s : str) (prev : option ascii) (pos skip : nat)
  (m : match_obj) :
m ∈ finditer_from ic r prev s pos skip → found_at ic r prev s pos m.
Proof.
revert prev pos skip. induction s as [|c s IH]; intros prev pos skip H.
- destruct skip; simpl in H; [|by apply elem_of_nil in H].
  destruct (match_here ic r prev []) as [[n caps]|] eqn:E;
    [|by apply elem_of_nil in H].
  apply list_elem_of_singleton in H as ->. by apply found_here.
- destruct skip as [|skip]; simpl in H.
  + destruct (match_here ic r prev (c :: s)) as [[n caps]|] eqn:E.
    * apply elem_of_cons in H as [->|H]; [by apply found_here|].
      apply found_step. by eapply IH.
    * apply found_step. by eapply IH.
  + apply found_step. by eapply IH.
Qed.

(** [re.search] finds something exactly when the pattern occurs. *)
Lemma search_occurs (text : str) :
matched (search ic r text) = true ↔ occurs ic r text.
Proof.
unfold search, occurs. split.
- destruct (search_from ic r None text 0) as [m|] eqn:E; [|discriminate].
  intros _. apply search_from_sound in E as (pre & s' & -> & _ & Hm).
  apply match_here_sound in Hm as (w & rest & -> & _ & Hd).
  rewrite lastc_None in Hd. by exists pre, w, rest, (m_groups m).
- intros (pre & w & post & caps & -> & Hd). rewrite <- lastc_None in Hd.
  destruct (search_from_complete pre w post None 0 caps Hd) as [m ->]. done.
Qed.

End Searching.

(** ** The program reference extractor *)

Section Extractor.
Import Re.

Lemma plus_class_greedy {A : Type} (ic : bool) (k : cclass) (s : str)
  (K : option ascii → str → option A) (a : A) :
(∀ p s', is_Some (K p s')) →
plus_class ic k s K = Some a →
∃ w rest, s = w ++ rest ∧ w ≠ [] ∧
  Forall (λ c, in_class ic k c = true) w ∧
  match rest with c :: _ => in_class ic k c = false | [] => True end ∧
  K (last w) rest = Some a.
Proof.
intros HK. revert a.
induction s as [|c s IH]; intros a H; simpl in H; [discriminate|].
destruct (in_class ic k c) eqn:Ec; [|discriminate].
destruct (plus_class ic k s K) as [a'|] eqn:Ep.
- injection H as ->.
  destruct (IH a eq_refl) as (w & rest & -> & Hw & Hall & Hrest & Ha).
  exists (c :: w), rest. repeat split; [done|by constructor|done|].
  destruct w; [done|exact Ha].
- exists [c], s. repeat split; [done|by repeat constructor| |exact H].
  destruct s as [|c' s]; [done|]. simpl in Ep.
  destruct (in_class ic k c'); [|done].
  destruct (plus_class ic k s K); [discriminate|].
  destruct (HK (Some c') s) as [x Hx]. congruence.
Qed.

Lemma in_class_upper_alnum (c : ascii) :
in_class false UpperAlnum c = upper_alnum c.
Proof. unfold in_class, upper_alnum. simpl. by rewrite orb_false_r. Qed.

Lemma upper_char_fixed (c : ascii) : upper_alnum c = true → Char.upper_char c = c.
Proof.
unfold upper_alnum, Char.upper_char, Char.is_upper, Char.is_digit,
  Char.is_lower, Char.between.
intros H.
destruct ((97 <=? Char.code c)%N && (Char.code c <=? 122)%N) eqn:E; [|done].
apply andb_true_iff in E as [E1 E2].
apply N.leb_le in E1, E2.
apply orb_true_iff in H as [H|H]; apply andb_true_iff in H as [H1 H2];
  apply N.leb_le in H1, H2; lia.
Qed.

Lemma upper_fixed (x : str) :
Forall (λ c, upper_alnum c = true) x → upper x = x.
Proof.
induction 1 as [|c x Hc Hx IH]; [done|].
unfold upper in *. simpl. by rewrite upper_char_fixed, IH.
Qed.

(** One match of [PGM=([A-Z0-9]+)]: the literal marker, then the longest
  run of upper-case letters and digits, which is the group. *)
Lemma match_here_pgm (prev : option ascii) (s : str) (n : nat) (caps : list str) :
match_here false pgm_pattern prev s = Some (n, caps) →
∃ x rest, s = txt "PGM=" ++ x ++ rest ∧ caps = [x] ∧ x ≠ [] ∧
  Forall (λ c, upper_alnum c = true) x ∧
  match rest with c :: _ => upper_alnum c = false | [] => True end.
Proof.
unfold match_here, pgm_pattern. simpl. intros H.
do 4 (destruct s as [|? s]; [discriminate|];
      match type of H with
      | context [bool_decide ?P] =>
          destruct (bool_decide_reflect P) as [<-|]; [|discriminate]
      end).
apply plus_class_greedy in H; [|eauto].
destruct H as (x & rest & -> & Hx & Hall & Hrest & H).
injection H as <- <-.
exists x, rest. split; [done|]. split.
- simpl. by rewrite length_app, Nat.add_sub, take_app_length.
- split; [done|]. split.
  + eapply Forall_impl; [exact Hall|]. intros c Hc.
    rewrite <- in_class_upper_alnum. exact Hc.
  + destruct rest; [done|]. rewrite <- in_class_upper_alnum. exact Hrest.
Qed.

End Extractor.

(** C4 (as the script has it).  The extractor returns, each once, the
    identifiers found by the case-sensitive pattern [PGM=([A-Z0-9]+)]: an
    identifier is a non-empty run of upper-case letters and digits that
    follows a literal [PGM=] in the text, so it is in upper case already
    and upper-casing leaves it as it is. *)
Theorem extract_pgm_from_jcl_spec (jcl_content : str) :
  NoDup (extract_pgm_from_jcl jcl_content) ∧
  (∀ x, x ∈ extract_pgm_from_jcl jcl_content ↔
        x ∈ Re.findall false pgm_pattern jcl_content) ∧
  Forall (λ x, x ≠ [] ∧ Forall (λ c, upper_alnum c = true) x ∧ upper x = x ∧
               ∃ pre post, jcl_content = pre ++ txt "PGM=" ++ x ++ post ∧
                 match post with
                 | c :: _ => upper_alnum c = false
                 | [] => True
                 end)
         (extract_pgm_from_jcl jcl_content).
Proof.
  unfold extract_pgm_from_jcl.
  assert (Hmem : ∀ x,
    x ∈ elements (list_to_set (Re.findall false pgm_pattern jcl_content) : gset str)
    ↔ x ∈ Re.findall false pgm_pattern jcl_content).
  { intros x. by rewrite elem_of_elements, elem_of_list_to_set. }
  split; [apply NoDup_elements|]. split; [exact Hmem|].
  apply Forall_forall. intros x Hx. apply Hmem in Hx.
  unfold Re.findall in Hx. apply list_elem_of_fmap in Hx as (m & -> & Hm).
  apply finditer_from_sound in Hm as (pre & s' & Htext & _ & Hm).
  apply match_here_pgm in Hm as (x & rest & -> & Hg & Hx & Hall & Hrest).
  unfold Re.group. rewrite Hg. simpl.
  split; [done|]. split; [done|]. split; [by apply upper_fixed|].
  by exists pre, rest.
Qed.

(** ** The I/O direction of a file *)

Section Direction.
Import Re Aggregated.

Lemma den_lit (ic : bool) (u : str) (prev : option ascii) (w rest : str)
  (caps : list str) :
den ic (lit u) prev w rest caps ↔
  Forall2 (λ p c, char_eq ic p c = true) u w ∧ caps = [].
Proof.
revert prev w caps. induction u as [|p u IH]; intros prev w caps; simpl.
- split.
  + intros [-> ->]. by split.
  + intros [H ->]. by inversion H.
- split.
  + intros (w1 & w2 & c1 & c2 & -> & (c & -> & Hc & ->) & Hd & ->).
    apply IH in Hd as [Hall ->]. split; [by constructor|done].
  + intros [H ->]. inversion H as [|p' c u' w' Hc Hall]; subst.
    exists [c], w', [], []. split; [done|]. split; [eauto|].
    split; [|done]. apply IH. by split.
Qed.

Lemma same_letters_spec (u w : str) :
Forall2 (λ p c, char_eq true p c = true) u w ↔ same_letters w u.
Proof.
unfold same_letters. split.
- induction 1 as [|p c u w Hc _ IH]; [done|].
  simpl in Hc. apply bool_decide_eq_true in Hc.
  rewrite !fmap_cons. by f_equal.
- revert w. induction u as [|p u IH]; intros [|c w] H;
    try discriminate; [constructor|].
  rewrite !fmap_cons in H. injection H as Hc H.
  constructor; [|by apply IH]. simpl. by apply bool_decide_eq_true.
Qed.

Lemma lastc_last (prev : option ascii) (w : str) : w ≠ [] → lastc prev w = last w.
Proof.
intros Hw. unfold lastc. destruct (last w) eqn:E; [done|].
by apply last_None in E.
Qed.

Lemma blanks_spec (ws : str) :
ws ≠ [] ∧ Forall (λ c, in_class true Space c = true) ws ↔ blanks ws.
Proof. reflexivity. Qed.

Lemma name_pattern_plain (name : str) :
  plain_name name = true → name_pattern name = Some (lit name).
Proof.
  induction name as [|c name IH]; [done|]. simpl.
  intros [Hc Hn]%andb_true_iff. apply negb_true_iff in Hc.
  unfold name_atom. rewrite Hc.
  rewrite bool_decide_eq_false_2.
  - rewrite (IH Hn). done.
  - intros ->. vm_compute in Hc. discriminate Hc.
Qed.

(** The pattern of [extract_file_type_from_fd] means an open statement. *)
Lemma den_open_pattern (d : file_type) (name : str) (prev : option ascii)
  (w rest : str) (caps : list str) :
den true (open_pattern d name) prev w rest caps ↔
  caps = [] ∧
  ∃ kw ws1 dw ws2 nm, w = kw ++ ws1 ++ dw ++ ws2 ++ nm ∧
    same_letters kw (txt "OPEN") ∧ blanks ws1 ∧
    same_letters dw (direction_word d) ∧ blanks ws2 ∧
    same_letters nm name ∧ at_boundary (last (ws2 ++ nm)) rest = true.
Proof.
unfold open_pattern.
change (den true (?a · ?b) ?p ?w ?r ?c)
  with (∃ w1 w2 c1 c2, w = w1 ++ w2 ∧ den true a p w1 (w2 ++ r) c1 ∧
          den true b (lastc p w1) w2 r c2 ∧ c = c1 ++ c2).
split.
- intros (kw & w2 & c1 & c2 & -> & Hkw & H & ->).
  apply den_lit in Hkw as [Hkw ->].
  destruct H as (ws1 & w3 & c1 & c3 & -> & Hws1 & H & ->).
  destruct Hws1 as (Hne1 & Hall1 & ->).
  destruct H as (dw & w4 & c1 & c4 & -> & Hdw & H & ->).
  apply den_lit in Hdw as [Hdw ->].
  destruct H as (ws2 & w5 & c1 & c5 & -> & Hws2 & H & ->).
  destruct Hws2 as (Hne2 & Hall2 & ->).
  destruct H as (nm & w6 & c1 & c6 & -> & Hnm & H & ->).
  apply den_lit in Hnm as [Hnm ->].
  destruct H as (-> & Hb & ->).
  split; [done|].
  exists kw, ws1, dw, ws2, nm. rewrite !app_nil_r.
  apply same_letters_spec in Hkw, Hdw, Hnm.
  repeat split; try done.
  rewrite lastc_app, lastc_last in Hb; [done|].
  intros [E _]%app_eq_nil. done.
- intros (-> & kw & ws1 & dw & ws2 & nm & -> & Hkw & Hws1 & Hdw & Hws2 & Hnm & Hb).
  apply same_letters_spec in Hkw, Hdw, Hnm.
  exists kw, (ws1 ++ dw ++ ws2 ++ nm), [], [].
  split; [done|]. split; [by apply den_lit|]. split; [|done].
  exists ws1, (dw ++ ws2 ++ nm), [], [].
  split; [done|]. split; [by destruct Hws1|]. split; [|done].
  exists dw, (ws2 ++ nm), [], [].
  split; [done|]. split; [by apply den_lit|]. split; [|done].
  exists ws2, nm, [], [].
  split; [done|]. split; [by destruct Hws2|]. split; [|done].
  exists nm, [], [], [].
  split; [by rewrite app_nil_r|]. split; [by apply den_lit|]. split; [|done].
  split; [done|]. split; [|done].
  rewrite lastc_app, lastc_last; [done|].
  intros [E _]%app_eq_nil. by destruct Hws2.
Qed.

Lemma search_open_statement (d : file_type) (name text : str) :
matched (search IGNORECASE (open_pattern d name) text) = true ↔
  open_statement d name text.
Proof.
rewrite search_occurs. unfold occurs, open_statement. split.
- intros (pre & w & post & caps & -> & Hd).
  apply den_open_pattern in Hd
    as (_ & kw & ws1 & dw & ws2 & nm & -> & ? & ? & ? & ? & ? & ?).
  exists pre, kw, ws1, dw, ws2, nm, post.
  split; [by rewrite <- !app_assoc|]. tauto.
- intros (pre & kw & ws1 & dw & ws2 & nm & post & -> & ? & ? & ? & ? & ? & ?).
  exists pre, (kw ++ ws1 ++ dw ++ ws2 ++ nm), post, [].
  split; [by rewrite <- !app_assoc|].
  apply den_open_pattern. split; [done|].
  exists kw, ws1, dw, ws2, nm. tauto.
Qed.

(** The character tables of the model are those spelled out in the
    vocabulary of the statements. *)
Lemma is_space_white (c : ascii) :
Char.is_space c = bool_decide (c ∈ white_chars).
Proof. by destruct c as [[] [] [] [] [] [] [] []]. Qed.

Lemma is_word_word_char (c : ascii) :
Char.is_word c = bool_decide (word_char c).
Proof. by destruct c as [[] [] [] [] [] [] [] []]. Qed.

Lemma upper_lower_char (c : ascii) :
Char.is_upper c = true → Char.upper_char (Char.lower_char c) = c.
Proof. destruct c as [[] [] [] [] [] [] [] []]; intros H; by try discriminate H. Qed.

Lemma lower_in_alphabet (c : ascii) :
Char.is_upper c = true →
  (Char.lower_char c, c) ∈ zip small_letters capital_letters.
Proof.
destruct c as [[] [] [] [] [] [] [] []]; intros H; try discriminate H;
  apply (bool_decide_unpack _); by vm_compute.
Qed.

Lemma alphabet_folds (a b : ascii) :
(a, b) ∈ zip small_letters capital_letters →
  Char.lower_char a = Char.lower_char b.
Proof.
assert (H : Forall (λ p, Char.lower_char p.1 = Char.lower_char p.2)
              (zip small_letters capital_letters))
  by (apply (bool_decide_unpack _); by vm_compute).
intros Hin. by apply (proj1 (Forall_forall _ _) H (a, b)).
Qed.

Lemma same_letter_spec (a b : ascii) :
Char.lower_char a = Char.lower_char b ↔ same_letter a b.
Proof.
unfold same_letter. split.
- intros E.
  destruct (Char.is_upper a) eqn:Ea, (Char.is_upper b) eqn:Eb.
  + left. by rewrite <- (upper_lower_char a Ea), E, upper_lower_char.
  + right; right. pose proof (lower_in_alphabet a Ea) as H.
    rewrite E in H. unfold Char.lower_char in H at 1. by rewrite Eb in H.
  + right; left. pose proof (lower_in_alphabet b Eb) as H.
    rewrite <- E in H. unfold Char.lower_char in H at 1. by rewrite Ea in H.
  + left. unfold Char.lower_char in E. by rewrite Ea, Eb in E.
- intros [->|[H|H]]; [done|by apply alphabet_folds|].
  symmetry. by apply alphabet_folds.
Qed.

Lemma same_word_spec (u w : str) : same_letters u w ↔ same_word u w.
Proof.
unfold same_letters, same_word. revert w.
induction u as [|a u IH]; intros [|b w]; rewrite ?fmap_cons.
- split; [constructor|done].
- split; [discriminate|inversion 1].
- split; [discriminate|inversion 1].
- split.
  + intros [= Hab H]. constructor; [by apply same_letter_spec|by apply IH].
  + inversion 1; subst. f_equal; [by apply same_letter_spec|by apply IH].
Qed.

Lemma white_space_spec (ws : str) : blanks ws ↔ white_space ws.
Proof.
unfold blanks, white_space. rewrite Forall_forall.
split; intros [Hne H]; (split; [done|]); intros c Hc; specialize (H c Hc).
- rewrite is_space_white in H. by apply bool_decide_eq_true in H.
- rewrite is_space_white. by apply bool_decide_eq_true.
Qed.

Lemma word_edge_spec (w post : str) :
at_boundary (last w) post = true ↔ (ends_in_word w ↔ ¬ starts_with_word post).
Proof.
assert (Hb : word_before (last w) = true ↔ ends_in_word w).
{ unfold word_before, ends_in_word. destruct (last w) as [c|].
  - rewrite is_word_word_char, bool_decide_eq_true. split; [by exists c|].
    by intros (c' & [= <-] & H).
  - split; [discriminate|]. by intros (c' & [=] & _). }
assert (Ha : word_after post = true ↔ starts_with_word post).
{ unfold word_after, starts_with_word. destruct post as [|c post]; simpl.
  - split; [discriminate|]. by intros (c' & [=] & _).
  - rewrite is_word_word_char, bool_decide_eq_true. split; [by exists c|].
    by intros (c' & [= <-] & H). }
unfold at_boundary.
destruct (word_before (last w)), (word_after post); simpl; intuition congruence.
Qed.

(** An open statement as the pattern reads it is an open statement as it
    is spelled out. *)
Lemma open_statement_opened (d : file_type) (name text : str) :
open_statement d name text ↔ opened (direction_word d) name text.
Proof.
unfold open_statement, opened.
split; intros (pre & kw & ws1 & dw & ws2 & nm & post & -> & Hk & H1 & Hd & H2 & Hn & Hb);
  exists pre, kw, ws1, dw, ws2, nm, post; (split; [done|]).
- rewrite <- !same_word_spec, <- !white_space_spec, <- word_edge_spec. tauto.
- rewrite !same_word_spec, !white_space_spec, word_edge_spec. tauto.
Qed.

Lemma literal_name_plain (name : str) :
literal_name name → plain_name name = true.
Proof.
unfold literal_name, plain_name. rewrite Forall_forall. intros H.
apply forallb_forall. intros c Hc%list_elem_of_In.
apply negb_true_iff, bool_decide_eq_false. by apply H.
Qed.

End Direction.

Lemma priority_cases (bi bo be : bool) (PI PO PE : Prop) :
  (bi = true ↔ PI) → (bo = true ↔ PO) → (be = true ↔ PE) →
  let d := if bi then Aggregated.INPUT
           else if bo then Aggregated.OUTPUT
           else if be then Aggregated.EXTEND
           else Aggregated.UNKNOWN in
  (d = Aggregated.INPUT ↔ PI) ∧
  (d = Aggregated.OUTPUT ↔ ¬ PI ∧ PO) ∧
  (d = Aggregated.EXTEND ↔ ¬ PI ∧ ¬ PO ∧ PE) ∧
  (d = Aggregated.UNKNOWN ↔ ¬ PI ∧ ¬ PO ∧ ¬ PE).
Proof.
  intros Hi Ho He.
  assert (Hi' : bi = false → ¬ PI) by (intros -> X; apply Hi in X; discriminate).
  assert (Ho' : bo = false → ¬ PO) by (intros -> X; apply Ho in X; discriminate).
  assert (He' : be = false → ¬ PE) by (intros -> X; apply He in X; discriminate).
  destruct bi, bo, be; simpl; intuition congruence.
Qed.

(** A property that does not occur in the section takes the default. *)
Lemma property_default (r : Re.regex) (section : str) :
  ¬ occurs Aggregated.IGNORECASE r section →
  Aggregated.property r section = txt "SEQUENTIAL".
Proof.
  intros Hno. unfold Aggregated.property.
  destruct (Re.search Aggregated.IGNORECASE r section) as [m|] eqn:E; [|done].
  exfalso. apply Hno. apply search_occurs. by rewrite E.
Qed.

(** The section of a declaration starts where the declaration ends. *)
Lemma section_text_window (text : str) (select_end : nat) :
  ∃ k, Aggregated.section_text text select_end = take k (drop select_end text).
Proof.
  unfold Aggregated.section_text, slice, slice_from.
  destruct (find (txt "SELECT") text select_end =? -1)%Z; [|eauto].
  exists (length text). by rewrite take_ge by (rewrite length_drop; lia).
Qed.

(** The two readings of the direction of a file agree. *)
Lemma search_opened (d : Aggregated.file_type) (name text : str) :
  Re.matched (Re.search Aggregated.IGNORECASE (Aggregated.open_pattern d name) text)
    = true ↔ opened (Aggregated.direction_word d) name text.
Proof. by rewrite search_open_statement, open_statement_opened. Qed.

(** C7, failing input.  A program declares the file [A.B] and opens
    another file, [AXB], for input.  The direction found for [A.B] is
    INPUT: the name goes into the pattern as it is, and its dot stands for
    any character.  Yet the text has no open statement of [A.B], for none
    of the three directions. *)
Theorem unescaped_name_matches_another_file :
  let text := txt "SELECT A.B ASSIGN TO DD1. OPEN INPUT AXB." in
  fst <$> Aggregated.extract_files_from_cobol_text text = [txt "A.B"] ∧
  Aggregated.extract_file_type_from_fd text (txt "A.B")
    = Some Aggregated.INPUT ∧
  ¬ opened (txt "INPUT") (txt "A.B") text ∧
  ¬ opened (txt "OUTPUT") (txt "A.B") text ∧
  ¬ opened (txt "EXTEND") (txt "A.B") text.
Proof.
  intros text. split; [by vm_compute|]. split; [by vm_compute|].
  repeat split.
  - intros H%(search_opened Aggregated.INPUT). by vm_compute in H.
  - intros H%(search_opened Aggregated.OUTPUT). by vm_compute in H.
  - intros H%(search_opened Aggregated.EXTEND). by vm_compute in H.
Qed.

(** X21.  In a 7-bit text, the direction of a file whose name has no
    character of the pattern syntax is found by looking for an open
    statement of that file anywhere in the whole text: INPUT when there is
    an [OPEN INPUT] of it, else OUTPUT when there is an [OPEN OUTPUT],
    else EXTEND when there is an [OPEN EXTEND], and UNKNOWN exactly when
    there is none of the three. *)
Theorem direction_of_literal_name (text name : str) :
  seven_bit text = true → seven_bit name = true → literal_name name →
  ∃ d, Aggregated.extract_file_type_from_fd text name = Some d ∧
    (d = Aggregated.INPUT ↔ opened (txt "INPUT") name text) ∧
    (d = Aggregated.OUTPUT ↔
       ¬ opened (txt "INPUT") name text ∧ opened (txt "OUTPUT") name text) ∧
    (d = Aggregated.EXTEND ↔
       ¬ opened (txt "INPUT") name text ∧ ¬ opened (txt "OUTPUT") name text ∧
       opened (txt "EXTEND") name text) ∧
    (d = Aggregated.UNKNOWN ↔
       ¬ opened (txt "INPUT") name text ∧ ¬ opened (txt "OUTPUT") name text ∧
       ¬ opened (txt "EXTEND") name text).
Proof.
  intros _ _ Hplain%literal_name_plain.
  unfold Aggregated.extract_file_type_from_fd.
  rewrite (name_pattern_plain name Hplain). simpl.
  fold (Aggregated.open_pattern Aggregated.INPUT name).
  fold (Aggregated.open_pattern Aggregated.OUTPUT name).
  fold (Aggregated.open_pattern Aggregated.EXTEND name).
  pose proof (search_opened Aggregated.INPUT name text) as Hi.
  pose proof (search_opened Aggregated.OUTPUT name text) as Ho.
  pose proof (search_opened Aggregated.EXTEND name text) as He.
  eexists. split; [reflexivity|].
  by apply priority_cases.
Qed.

(** X21, witness: INFILE is opened for input after another file was
    opened for output. *)
Lemma direction_of_literal_name_witness :
  Aggregated.extract_file_type_from_fd
    (txt "OPEN OUTPUT OUTF. open input  infile.") (txt "INFILE")
    = Some Aggregated.INPUT ∧
  opened (txt "INPUT") (txt "INFILE")
    (txt "OPEN OUTPUT OUTF. open input  infile.").
Proof.
  assert (Hlit : literal_name (txt "INFILE"))
    by (apply (bool_decide_unpack _); by vm_compute).
  destruct (direction_of_literal_name
              (txt "OPEN OUTPUT OUTF. open input  infile.") (txt "INFILE")
              eq_refl eq_refl Hlit)
    as (d & Hd & Hin & _).
  vm_compute in Hd. injection Hd as <-.
  split; [reflexivity|]. by apply Hin.
Defined.

(** C4, counterexample: the marker is recognised in upper case only.  The
    same invocation spelled in lower case yields nothing, and a name in
    mixed case is cut at its first lower-case letter. *)
Lemma marker_case_not_folded :
  extract_pgm_from_jcl (txt "//STEP1 EXEC PGM=PROGA") = [txt "PROGA"] ∧
  extract_pgm_from_jcl (txt "//step1 exec pgm=proga") = [] ∧
  extract_pgm_from_jcl (txt "//STEP1 EXEC PGM=proga") = [] ∧
  extract_pgm_from_jcl (txt "//STEP1 EXEC PGM=Proga") = [txt "P"].
Proof. repeat split; vm_compute; reflexivity. Qed.

(** C6.  A program written in lower case: two declarations, only the
    second with an ORGANIZATION clause.  The declaration of A ends at offset 23 and the
    declaration of B starts at offset 24, so nothing but one blank lies
    between them; yet the text searched for the properties of A runs to the
    end of the program, and A gets the organization that belongs to B. *)
Theorem property_taken_from_next_declaration :
  let text :=
    txt "select a assign to dda. select b assign to ddb organization is indexed." in
  ((λ m, (Re.m_start m, Re.m_end m)) <$>
     Re.finditer Aggregated.IGNORECASE Aggregated.select_pattern text
     = [(0, 23); (24, 46)]) ∧
  fst <$> Aggregated.extract_files_from_cobol_text text = [txt "A"; txt "B"] ∧
  Aggregated.property Aggregated.org_pattern (slice text 23 24) = txt "SEQUENTIAL" ∧
  Aggregated.section_text text 23
    = txt " select b assign to ddb organization is indexed." ∧
  Aggregated.organization <$>
    dict_get (txt "A") (Aggregated.extract_files_from_cobol_text text)
    = Some (txt "INDEXED.").
Proof. repeat split; vm_compute; reflexivity. Qed.

(** ** More on the dependency graph *)

Section DepGraphShape.
Import DepGraph.

Lemma foldl_add_jcl_edges (p : str) (js : list str) (g : graph) :
  edges (foldl (add_jcl p) g js)
    = edges g ++ ((λ j, Edge (jcl_id_of j) p (txt "executes")) <$> js).
Proof.
  revert g. induction js as [|j js IH]; intros g; simpl.
  - by rewrite app_nil_r.
  - rewrite IH. simpl. by rewrite <- app_assoc.
Qed.

Lemma add_program_edges (g : graph) (pi : program_info) :
  edges (add_program g pi) = edges g ++ executes_edges pi.
Proof.
  unfold add_program, executes_edges.
  destruct (jcl_files pi) as [|j js]; simpl.
  - by rewrite app_nil_r.
  - rewrite foldl_add_jcl_edges. simpl. by rewrite <- app_assoc.
Qed.

Lemma foldl_add_program_edges (ps : list program_info) (g : graph) :
  edges (foldl add_program g ps) = edges g ++ concat (executes_edges <$> ps).
Proof.
  revert g. induction ps as [|pi ps IH]; intros g; simpl.
  - by rewrite app_nil_r.
  - rewrite IH, add_program_edges. by rewrite <- app_assoc.
Qed.

Lemma add_jcl_programs (p : str) (g : graph) (j : str) :
  filter is_program (nodes (add_jcl p g j)) = filter is_program (nodes g).
Proof.
  unfold add_jcl; simpl.
  destruct (negb (has_id (jcl_id_of j) (nodes g))); [|done].
  rewrite filter_app. rewrite filter_cons_False by (unfold is_program; simpl; congruence).
  by rewrite app_nil_r.
Qed.

Lemma foldl_add_jcl_programs (p : str) (js : list str) (g : graph) :
  filter is_program (nodes (foldl (add_jcl p) g js)) = filter is_program (nodes g).
Proof.
  revert g. induction js as [|j js IH]; intros g; simpl; [done|].
  by rewrite IH, add_jcl_programs.
Qed.

Lemma add_program_programs (g : graph) (pi : program_info) :
  filter is_program (nodes (add_program g pi))
    = filter is_program (nodes g) ++ [program_node_of pi].
Proof.
  assert (H : filter is_program (nodes g ++ [program_node_of pi])
              = filter is_program (nodes g) ++ [program_node_of pi]).
  { rewrite filter_app. by f_equal. }
  unfold add_program. destruct (jcl_files pi) as [|j js] eqn:E.
  - simpl. unfold program_node_of in H |- *. rewrite E in H |- *. exact H.
  - rewrite foldl_add_jcl_programs. simpl.
    unfold program_node_of in H |- *. rewrite E in H |- *. exact H.
Qed.

Lemma foldl_add_program_programs (ps : list program_info) (g : graph) :
  filter is_program (nodes (foldl add_program g ps))
    = filter is_program (nodes g) ++ (program_node_of <$> ps).
Proof.
  revert g. induction ps as [|pi ps IH]; intros g; simpl.
  - by rewrite app_nil_r.
  - rewrite IH, add_program_programs. by rewrite <- app_assoc.
Qed.

End DepGraphShape.

(** X1.  The edges of the dependency graph are, in the order of the
    mapping artifact, one [executes] edge from the job identifier to the
    program for every entry of every [jcl_files] list: nothing is merged
    and nothing is dropped. *)
Theorem edges_follow_artifact (cbl_files : list DepGraph.program_info) :
  DepGraph.edges (DepGraph.generate_dependency_graph cbl_files)
    = concat (executes_edges <$> cbl_files).
Proof.
  unfold DepGraph.generate_dependency_graph.
  by rewrite foldl_add_program_edges.
Qed.

(** X2.  The program nodes of the dependency graph are, in order, one per
    entry of the mapping artifact, each with the program name as id and
    label and carrying the entry's [jcl_files]. *)
Theorem program_nodes_follow_artifact (cbl_files : list DepGraph.program_info) :
  filter is_program
    (DepGraph.nodes (DepGraph.generate_dependency_graph cbl_files))
    = program_node_of <$> cbl_files.
Proof.
  unfold DepGraph.generate_dependency_graph.
  by rewrite foldl_add_program_programs.
Qed.

Section JobNodes.
Import DepGraph.
Variable all_jcl : list str.

Lemma add_jcl_jobs (p : str) (g : graph) (j : str) :
  j ∈ all_jcl → jobs_ok all_jcl g → jobs_ok all_jcl (add_jcl p g j).
Proof.
  intros Hj [Hnd Hall]. unfold jobs_ok, add_jcl; simpl.
  destruct (has_id (jcl_id_of j) (nodes g)) eqn:E; simpl; [done|].
  rewrite filter_app, filter_cons_True by done.
  rewrite filter_nil, fmap_app. split.
  - apply NoDup_app. split; [done|]. split; [|apply NoDup_singleton].
    intros i Hi Hi'. apply list_elem_of_singleton in Hi' as ->.
    apply list_elem_of_fmap in Hi as (n & Hid & Hn).
    apply list_elem_of_filter in Hn as [_ Hn].
    assert (has_id (jcl_id_of j) (nodes g) = true); [|congruence].
    apply has_id_spec. apply list_elem_of_fmap. by exists n.
  - apply Forall_app. split; [done|]. by repeat constructor.
Qed.

Lemma foldl_add_jcl_jobs (p : str) (js : list str) (g : graph) :
  js ⊆ all_jcl → jobs_ok all_jcl g → jobs_ok all_jcl (foldl (add_jcl p) g js).
Proof.
  revert g. induction js as [|j js IH]; intros g Hjs Hg; simpl; [done|].
  apply IH.
  - intros x Hx. apply Hjs. by apply elem_of_cons; right.
  - apply add_jcl_jobs; [|done]. apply Hjs. apply list_elem_of_here.
Qed.

Lemma add_program_jobs (g : graph) (pi : program_info) :
  jcl_files pi ⊆ all_jcl → jobs_ok all_jcl g → jobs_ok all_jcl (add_program g pi).
Proof.
  intros Hjs Hg.
  assert (Hg1 : ∀ w wo,
    jobs_ok all_jcl (Graph (nodes g ++ [program_node_of pi]) (edges g) w wo)).
  { intros w wo. unfold jobs_ok. simpl.
    rewrite filter_app, filter_cons_False by (unfold is_jcl; simpl; congruence).
    rewrite filter_nil, app_nil_r. exact Hg. }
  unfold add_program. destruct (jcl_files pi) as [|j js] eqn:E.
  - unfold program_node_of in Hg1. rewrite E in Hg1. apply Hg1.
  - apply foldl_add_jcl_jobs; [done|].
    unfold program_node_of in Hg1. rewrite E in Hg1. apply Hg1.
Qed.

Lemma foldl_add_program_jobs (ps : list program_info) (g : graph) :
  concat (jcl_files <$> ps) ⊆ all_jcl → jobs_ok all_jcl g →
  jobs_ok all_jcl (foldl add_program g ps).
Proof.
  revert g. induction ps as [|pi ps IH]; intros g Hps Hg; simpl; [done|].
  simpl in Hps. apply IH.
  - intros x Hx. apply Hps. apply elem_of_app. by right.
  - apply add_program_jobs; [|done].
    intros x Hx. apply Hps. apply elem_of_app. by left.
Qed.

End JobNodes.

(** X3.  Whatever the mapping artifact, no two job nodes of the
    dependency graph share an id; the id of a job node is its label (a JCL
    file name of the artifact) with [.jcl] taken out and every other dot
    turned into an underscore. *)
Theorem job_nodes_distinct (cbl_files : list DepGraph.program_info) :
  let job_nodes :=
    filter is_jcl (DepGraph.nodes (DepGraph.generate_dependency_graph cbl_files)) in
  NoDup (DepGraph.id <$> job_nodes) ∧
  Forall (job_node_ok (concat (DepGraph.jcl_files <$> cbl_files))) job_nodes.
Proof.
  apply (foldl_add_program_jobs _ cbl_files DepGraph.empty); [done|].
  split; [constructor|constructor].
Qed.

Section Summary.
Import DepGraph.

Lemma foldl_add_jcl_lists (p : str) (js : list str) (g : graph) :
  programs_with_jcl (foldl (add_jcl p) g js) = programs_with_jcl g ∧
  programs_without_jcl (foldl (add_jcl p) g js) = programs_without_jcl g.
Proof.
  revert g. induction js as [|j js IH]; intros g; simpl; [done|].
  destruct (IH (add_jcl p g j)) as [-> ->]. done.
Qed.

Lemma add_program_lists (g : graph) (pi : program_info) :
  programs_with_jcl (add_program g pi)
    = programs_with_jcl g ++ (program <$> filter has_jcl [pi]) ∧
  programs_without_jcl (add_program g pi)
    = programs_without_jcl g ++ (program <$> filter (λ x, ¬ has_jcl x) [pi]).
Proof.
  unfold add_program.
  destruct (jcl_files pi) as [|j js] eqn:E.
  - assert (Hno : ¬ has_jcl pi) by (unfold has_jcl; rewrite E; intros H; by apply H).
    rewrite filter_cons_False, filter_cons_True by done.
    simpl. by rewrite app_nil_r.
  - assert (Hyes : has_jcl pi) by (unfold has_jcl; by rewrite E).
    rewrite filter_cons_True, filter_cons_False by tauto.
    rewrite (proj1 (foldl_add_jcl_lists _ _ _)), (proj2 (foldl_add_jcl_lists _ _ _)).
    simpl. by rewrite app_nil_r.
Qed.

Lemma foldl_add_program_lists (ps : list program_info) (g : graph) :
  programs_with_jcl (foldl add_program g ps)
    = programs_with_jcl g ++ (program <$> filter has_jcl ps) ∧
  programs_without_jcl (foldl add_program g ps)
    = programs_without_jcl g ++ (program <$> filter (λ x, ¬ has_jcl x) ps).
Proof.
  revert g. induction ps as [|pi ps IH]; intros g.
  - simpl. by rewrite !app_nil_r.
  - change (foldl add_program g (pi :: ps))
      with (foldl add_program (add_program g pi) ps).
    destruct (IH (add_program g pi)) as [-> ->].
    destruct (add_program_lists g pi) as [-> ->].
    change (pi :: ps) with ([pi] ++ ps).
    by rewrite !filter_app, !fmap_app, <- !app_assoc.
Qed.

Lemma filter_split_length {X : Type} (P : X → Prop) `{∀ x, Decision (P x)}
    (l : list X) :
  length (filter P l) + length (filter (λ x, ¬ P x) l) = length l.
Proof.
  induction l as [|x l IH]; [done|].
  rewrite !filter_cons. destruct (decide (P x)), (decide (¬ P x)); simpl; try lia; tauto.
Qed.

End Summary.

(** X4.  The summary splits the programs of the artifact in two: those
    with at least one JCL file and those with none, each list in the order
    of the artifact, so the two counts add up to [total_programs]. *)
Theorem summary_partitions_programs (cbl_files : list DepGraph.program_info) :
  let g := DepGraph.generate_dependency_graph cbl_files in
  let sm := DepGraph.summary_of cbl_files g in
  DepGraph.programs_with_jcl g = DepGraph.program <$> filter has_jcl cbl_files ∧
  DepGraph.programs_without_jcl g
    = DepGraph.program <$> filter (λ pi, ¬ has_jcl pi) cbl_files ∧
  DepGraph.n_programs_with_jcl sm + DepGraph.n_programs_without_jcl sm
    = DepGraph.total_programs sm.
Proof.
  intros g sm.
  destruct (foldl_add_program_lists cbl_files DepGraph.empty) as [Hw Hwo].
  simpl in Hw, Hwo. split; [exact Hw|]. split; [exact Hwo|].
  unfold sm, DepGraph.summary_of, g, DepGraph.generate_dependency_graph; simpl.
  rewrite Hw, Hwo, !length_fmap. apply filter_split_length.
Qed.

(** ** Job identifiers *)

Section JclId.

Lemma replace_dot_no_dot (skip : nat) (s : str) :
  dot ∉ replace_go (txt ".") (txt "_") skip s.
Proof.
  revert skip. induction s as [|c s IH]; intros skip; simpl.
  - apply not_elem_of_nil.
  - destruct skip as [|k]; [|apply IH].
    destruct (bool_decide_reflect ("."%char = c)) as [<-|Hc]; simpl.
    + apply not_elem_of_cons. split; [discriminate|apply IH].
    + apply not_elem_of_cons. split; [|apply IH]. unfold dot. congruence.
Qed.

(** A text without the first character of [old] has no occurrence of
    [old], and [replace] leaves it as it is. *)
Lemma replace_go_absent (o : ascii) (old new s : str) :
  o ∉ s → replace_go (o :: old) new 0 s = s.
Proof.
  induction s as [|c s IH]; intros Ho; simpl; [done|].
  apply not_elem_of_cons in Ho as [Hc Hs].
  destruct (bool_decide_reflect (o = c)) as [->|_]; [done|].
  simpl. by rewrite IH.
Qed.

Lemma replace_jcl_suffix (s : str) :
  dot ∉ s → replace (txt ".jcl") [] (s ++ txt ".jcl") = s.
Proof.
  unfold replace. induction s as [|c s IH]; intros Hs; [reflexivity|].
  apply not_elem_of_cons in Hs as [Hc Hs].
  change ((c :: s) ++ txt ".jcl") with (c :: (s ++ txt ".jcl")).
  change (txt ".jcl") with ("."%char :: txt "jcl") at 1.
  cbn [replace_go is_prefix].
  destruct (bool_decide_reflect ("."%char = c)) as [<-|_]; [done|].
  simpl. f_equal. by apply IH.
Qed.

End JclId.

(** X5.  A job identifier never contains a dot, whatever the name of the
    JCL file. *)
Theorem jcl_id_has_no_dot (jcl_file : str) :
  dot ∉ DepGraph.jcl_id_of jcl_file.
Proof. unfold DepGraph.jcl_id_of, replace. apply replace_dot_no_dot. Qed.

(** X6.  For a job name without dots, the identifier of [name.jcl] is the
    name itself, and so is the identifier of the bare name: a file and its
    extension-less spelling share one identifier. *)
Theorem jcl_id_strips_extension (name : str) :
  dot ∉ name →
  DepGraph.jcl_id_of (name ++ txt ".jcl") = name ∧
  DepGraph.jcl_id_of name = name.
Proof.
  intros Hn. unfold DepGraph.jcl_id_of.
  rewrite replace_jcl_suffix by done. unfold replace.
  change (txt ".jcl") with ("."%char :: txt "jcl").
  change (txt ".") with ("."%char :: []).
  rewrite (replace_go_absent "."%char (txt "jcl")) by exact Hn.
  rewrite (replace_go_absent "."%char []) by exact Hn.
  by split.
Qed.

(** X6, witness: the job DAILY01. *)
Lemma jcl_id_strips_extension_witness :
  (dot ∉ txt "DAILY01") ∧
  DepGraph.jcl_id_of (txt "DAILY01.jcl") = txt "DAILY01" ∧
  DepGraph.jcl_id_of (txt "DAILY01") = txt "DAILY01".
Proof.
  assert (H : dot ∉ txt "DAILY01").
  { apply (bool_decide_unpack _). vm_compute. exact I. }
  split; [exact H|]. exact (jcl_id_strips_extension (txt "DAILY01") H).
Defined.

(** X7, witness: two programs run by the same job. *)
Lemma node_keys_unique_witness :
  NoDup (DepGraph.program <$>
           [DepGraph.ProgramInfo (txt "PROGA") [txt "NIGHTLY.jcl"];
            DepGraph.ProgramInfo (txt "PROGB") [txt "NIGHTLY.jcl"]]) ∧
  NoDup (DepGraph.key <$>
           DepGraph.nodes
             (DepGraph.generate_dependency_graph
                [DepGraph.ProgramInfo (txt "PROGA") [txt "NIGHTLY.jcl"];
                 DepGraph.ProgramInfo (txt "PROGB") [txt "NIGHTLY.jcl"]])).
Proof.
  assert (H : NoDup (DepGraph.program <$>
           [DepGraph.ProgramInfo (txt "PROGA") [txt "NIGHTLY.jcl"];
            DepGraph.ProgramInfo (txt "PROGB") [txt "NIGHTLY.jcl"]])).
  { apply (bool_decide_unpack _). vm_compute. exact I. }
  split; [exact H|]. exact (node_keys_unique _ H).
Defined.

(** ** The scan of the job-control corpus *)

Section Scan.
Import Analyze Mapping.
Variable cobol_index : gmap str str.

Lemma extract_pgm_upper (jcl_content x : str) :
  x ∈ extract_pgm_from_jcl jcl_content → upper x = x.
Proof.
  unfold extract_pgm_from_jcl. rewrite elem_of_elements, elem_of_list_to_set.
  unfold Re.findall. intros (m & -> & Hm)%list_elem_of_fmap.
  apply finditer_from_sound in Hm as (pre & s' & _ & _ & Hm).
  apply match_here_pgm in Hm as (x & rest & _ & Hg & _ & Hall & _).
  unfold Re.group. rewrite Hg. simpl. by apply upper_fixed.
Qed.

Lemma extract_pgm_NoDup (jcl_content : str) :
  NoDup (extract_pgm_from_jcl jcl_content).
Proof. unfold extract_pgm_from_jcl. apply NoDup_elements. Qed.

Lemma scan_job_eq (s : scan) (jcl_name jcl_content : str) :
  scan_job cobol_index s (jcl_name, jcl_content)
    = foldl (scan_prog cobol_index jcl_name) s (extract_pgm_from_jcl jcl_content).
Proof. unfold scan_job. by destruct (extract_pgm_from_jcl jcl_content). Qed.

Lemma scan_prog_stats (j : str) (s : scan) (p : str) :
  upper p = p →
  found (st (scan_prog cobol_index j s p))
    = found (st s) + length (filter (resolved cobol_index) [p]) ∧
  system (st (scan_prog cobol_index j s p))
    = system (st s) + length (filter (utility cobol_index) [p]) ∧
  missing (st (scan_prog cobol_index j s p))
    = missing (st s) + length (filter (unknown cobol_index) [p]).
Proof.
  intros Hp. unfold scan_prog, is_system_program. rewrite Hp.
  destruct (cobol_index !! p) as [f|] eqn:E.
  - assert (Hr : resolved cobol_index p) by (apply elem_of_dom; eauto).
    rewrite filter_cons_True by done.
    rewrite !filter_cons_False by (unfold utility, unknown; tauto).
    simpl. lia.
  - assert (Hr : ¬ resolved cobol_index p) by (by apply not_elem_of_dom).
    rewrite (filter_cons_False (resolved cobol_index)) by done.
    case_bool_decide as Hs.
    + rewrite filter_cons_True by done.
      rewrite filter_cons_False by (unfold unknown; tauto). simpl. lia.
    + rewrite filter_cons_False by (unfold utility; tauto).
      rewrite filter_cons_True by done. simpl. lia.
Qed.

Lemma foldl_scan_prog_stats (j : str) (progs : list str) (s : scan) :
  Forall (λ p, upper p = p) progs →
  found (st (foldl (scan_prog cobol_index j) s progs))
    = found (st s) + length (filter (resolved cobol_index) progs) ∧
  system (st (foldl (scan_prog cobol_index j) s progs))
    = system (st s) + length (filter (utility cobol_index) progs) ∧
  missing (st (foldl (scan_prog cobol_index j) s progs))
    = missing (st s) + length (filter (unknown cobol_index) progs).
Proof.
  intros Hall. revert s. induction Hall as [|p progs Hp _ IH]; intros s.
  - simpl. lia.
  - change (foldl ?f s (p :: progs)) with (foldl f (f s p) progs).
    destruct (IH (scan_prog cobol_index j s p)) as (-> & -> & ->).
    destruct (scan_prog_stats j s p Hp) as (-> & -> & ->).
    change (p :: progs) with ([p] ++ progs).
    rewrite !filter_app, !length_app. lia.
Qed.

Lemma foldl_scan_job_stats (jobs : list (str * str)) (s : scan) :
  found (st (foldl (scan_job cobol_index) s jobs))
    = found (st s) + length (filter (resolved cobol_index) (references jobs)) ∧
  system (st (foldl (scan_job cobol_index) s jobs))
    = system (st s) + length (filter (utility cobol_index) (references jobs)) ∧
  missing (st (foldl (scan_job cobol_index) s jobs))
    = missing (st s) + length (filter (unknown cobol_index) (references jobs)).
Proof.
  revert s. induction jobs as [|[j c] jobs IH]; intros s.
  - simpl. lia.
  - change (foldl ?f s ((j, c) :: jobs)) with (foldl f (f s (j, c)) jobs).
    destruct (IH (scan_job cobol_index s (j, c))) as (-> & -> & ->).
    rewrite scan_job_eq.
    destruct (foldl_scan_prog_stats j (extract_pgm_from_jcl c) s) as (-> & -> & ->).
    { apply Forall_forall. intros x Hx. by eapply extract_pgm_upper. }
    unfold references. rewrite fmap_cons. simpl concat.
    rewrite !filter_app, !length_app. simpl. lia.
Qed.

Lemma three_way_split (l : list str) :
  length (filter (resolved cobol_index) l) + length (filter (utility cobol_index) l)
    + length (filter (unknown cobol_index) l) = length l.
Proof.
  induction l as [|x l IH]; [done|].
  rewrite !filter_cons. unfold resolved, utility,
    unknown in *.
  destruct (decide (x ∈ dom cobol_index)), (decide (x ∈ system_programs));
    repeat case_decide; simpl; try lia; tauto.
Qed.

Lemma dd_append_lookup (k v q : str) (d : gmap str (list str)) :
  default [] (dd_append k v d !! q)
    = default [] (d !! q) ++ (if decide (q = k) then [v] else []).
Proof.
  unfold dd_append. destruct (decide (q = k)) as [->|Hne].
  - by rewrite lookup_insert_eq.
  - rewrite lookup_insert_ne by done. by rewrite app_nil_r.
Qed.

Lemma dd_append_nonempty (k v : str) (d : gmap str (list str)) :
  values_nonempty d → values_nonempty (dd_append k v d).
Proof.
  intros Hd q l. unfold dd_append. destruct (decide (q = k)) as [->|Hne].
  - rewrite lookup_insert_eq. intros [= <-]. by destruct (default [] (d !! k)).
  - rewrite lookup_insert_ne by done. apply Hd.
Qed.

Lemma scan_prog_bindings (j : str) (s : scan) (p q : str) :
  upper p = p →
  default [] (cobol_to_jcl (scan_prog cobol_index j s p) !! q)
    = default [] (cobol_to_jcl s !! q)
      ++ (if decide (q = p ∧ resolved cobol_index p) then [j] else []) ∧
  (values_nonempty (cobol_to_jcl s) →
   values_nonempty (cobol_to_jcl (scan_prog cobol_index j s p))).
Proof.
  intros Hp. unfold scan_prog. rewrite Hp.
  destruct (cobol_index !! p) as [f|] eqn:E.
  - assert (Hr : resolved cobol_index p) by (apply elem_of_dom; eauto).
    simpl. split; [|apply dd_append_nonempty].
    rewrite dd_append_lookup.
    destruct (decide (q = p)), (decide (q = p ∧ resolved cobol_index p)); tauto.
  - assert (Hr : ¬ resolved cobol_index p) by (by apply not_elem_of_dom).
    rewrite decide_False by tauto. rewrite app_nil_r.
    by destruct (is_system_program p).
Qed.

Lemma foldl_scan_prog_bindings (j : str) (progs : list str) (s : scan) (q : str) :
  Forall (λ p, upper p = p) progs → NoDup progs →
  default [] (cobol_to_jcl (foldl (scan_prog cobol_index j) s progs) !! q)
    = default [] (cobol_to_jcl s !! q)
      ++ (if decide (q ∈ progs ∧ resolved cobol_index q) then [j] else []) ∧
  (values_nonempty (cobol_to_jcl s) →
   values_nonempty (cobol_to_jcl (foldl (scan_prog cobol_index j) s progs))).
Proof.
  intros Hall. revert s. induction Hall as [|p progs Hp _ IH]; intros s Hnd.
  - cbn [foldl]. rewrite decide_False by (intros [H _]; by apply elem_of_nil in H).
    by rewrite app_nil_r.
  - apply NoDup_cons in Hnd as [Hnew Hnd].
    change (foldl ?f s (p :: progs)) with (foldl f (f s p) progs).
    destruct (IH (scan_prog cobol_index j s p) Hnd) as [-> Hne].
    destruct (scan_prog_bindings j s p q Hp) as [-> Hne'].
    split; [|auto]. rewrite <- app_assoc. f_equal.
    destruct (decide (q = p)) as [->|Hqp].
    + destruct (decide (resolved cobol_index p)).
      * rewrite decide_True, decide_False, decide_True; try tauto.
        split; [apply list_elem_of_here|done].
      * rewrite !decide_False; tauto.
    + rewrite (decide_False (P := q = p ∧ _)) by tauto. simpl.
      destruct (decide (q ∈ progs ∧ resolved cobol_index q)) as [[? ?]|Hn].
      * rewrite decide_True; [done|]. split; [by apply elem_of_cons; right|done].
      * rewrite decide_False; [done|].
        intros [[?|?]%elem_of_cons ?]; tauto.
Qed.

Lemma foldl_scan_job_bindings (jobs : list (str * str)) (s : scan) (q : str) :
  default [] (cobol_to_jcl (foldl (scan_job cobol_index) s jobs) !! q)
    = default [] (cobol_to_jcl s !! q) ++ jobs_of cobol_index jobs q ∧
  (values_nonempty (cobol_to_jcl s) →
   values_nonempty (cobol_to_jcl (foldl (scan_job cobol_index) s jobs))).
Proof.
  revert s. induction jobs as [|[j c] jobs IH]; intros s.
  - simpl. unfold jobs_of. rewrite filter_nil.
    destruct (decide (q ∈ dom cobol_index)); by rewrite app_nil_r.
  - change (foldl ?f s ((j, c) :: jobs)) with (foldl f (f s (j, c)) jobs).
    destruct (IH (scan_job cobol_index s (j, c))) as [-> Hne].
    rewrite scan_job_eq.
    destruct (foldl_scan_prog_bindings j (extract_pgm_from_jcl c) s q) as [-> Hne'].
    { apply Forall_forall. intros x Hx. by eapply extract_pgm_upper. }
    { apply extract_pgm_NoDup. }
    split; [|intros H; rewrite <- scan_job_eq; apply Hne;
             rewrite scan_job_eq; by apply Hne'].
    rewrite <- app_assoc. f_equal.
    unfold jobs_of, resolved. rewrite filter_cons. simpl.
    destruct (decide (q ∈ dom cobol_index)) as [Hq|Hq].
    + destruct (decide (q ∈ extract_pgm_from_jcl c)).
      * by rewrite decide_True.
      * by rewrite decide_False by tauto.
    + by rewrite decide_False by tauto.
Qed.

End Scan.

(** X8.  After the scan, the three counters are the numbers of references
    of the corpus (each job's distinct [PGM=] names) that are in the
    index, that are not in the index but system utilities, and that are
    neither; together they count every reference exactly once. *)
Theorem scan_statistics (cobol_index : gmap str str) (jobs : list (str * str)) :
  let s := Mapping.scan_jobs cobol_index jobs in
  Analyze.found (Analyze.st s)
    = length (filter (resolved cobol_index) (references jobs)) ∧
  Analyze.system (Analyze.st s)
    = length (filter (utility cobol_index) (references jobs)) ∧
  Analyze.missing (Analyze.st s)
    = length (filter (unknown cobol_index) (references jobs)) ∧
  counted s = length (references jobs).
Proof.
  intros s.
  destruct (foldl_scan_job_stats cobol_index jobs Analyze.scan0) as (Hf & Hs & Hm).
  fold (Mapping.scan_jobs cobol_index jobs) in Hf, Hs, Hm. fold s in Hf, Hs, Hm.
  simpl in Hf, Hs, Hm.
  repeat split; try done.
  unfold counted. rewrite Hf, Hs, Hm. apply three_way_split.
Qed.

(** X9.  After the scan, a program is a key of [cobol_to_jcl] exactly when
    it is in the index and some job invokes it, and it is then bound to
    the display names of the jobs that invoke it, in scan order, one entry
    per job. *)
Theorem bindings_list_invoking_jobs
    (cobol_index : gmap str str) (jobs : list (str * str)) (p : str) :
  Analyze.cobol_to_jcl (Mapping.scan_jobs cobol_index jobs) !! p
    = if decide (jobs_of cobol_index jobs p = []) then None
      else Some (jobs_of cobol_index jobs p).
Proof.
  destruct (foldl_scan_job_bindings cobol_index jobs Analyze.scan0 p) as [Hl Hne].
  fold (Mapping.scan_jobs cobol_index jobs) in Hl, Hne.
  simpl in Hl. rewrite lookup_empty in Hl. simpl in Hl.
  assert (Hv : values_nonempty
                 (Analyze.cobol_to_jcl (Mapping.scan_jobs cobol_index jobs))).
  { apply Hne. intros q l Hq. simpl in Hq. by rewrite lookup_empty in Hq. }
  destruct (Analyze.cobol_to_jcl (Mapping.scan_jobs cobol_index jobs) !! p)
    as [l|] eqn:E; simpl in Hl.
  - rewrite <- Hl. rewrite decide_False; [done|]. by eapply Hv.
  - rewrite <- Hl. by rewrite decide_True.
Qed.

(** ** The mapping artifact *)

Section Artifact.
Import Analyze Mapping.

Lemma str_leb_total (a b : str) : str_leb a b = true ∨ str_leb b a = true.
Proof.
  revert b. induction a as [|x a IH]; intros [|y b]; simpl; auto.
  rewrite (N.compare_antisym (Char.code x) (Char.code y)).
  destruct (Char.code x ?= Char.code y)%N; simpl; auto.
Qed.

Global Instance str_le_total : Total str_le.
Proof. intros a b. apply str_leb_total. Qed.

Lemma cbl_files_programs (s : scan) :
  DepGraph.program <$> cbl_files s = sorted_keys (cobol_to_jcl s).
Proof.
  unfold cbl_files. rewrite <- list_fmap_compose.
  induction (sorted_keys (cobol_to_jcl s)) as [|k ks IH]; [done|].
  rewrite fmap_cons. simpl. by rewrite IH.
Qed.

Lemma sorted_keys_spec (d : gmap str (list str)) :
  Sorted str_le (sorted_keys d) ∧ NoDup (sorted_keys d) ∧
  ∀ k, k ∈ sorted_keys d ↔ k ∈ dom d.
Proof.
  unfold sorted_keys. split; [apply (Sorted_merge_sort str_le)|].
  split.
  - rewrite merge_sort_Permutation. apply NoDup_elements.
  - intros k. rewrite merge_sort_Permutation. apply elem_of_elements.
Qed.

Lemma cbl_files_keys (s : scan) (p : str) :
  p ∈ sorted_keys (cobol_to_jcl s) → p ∈ dom (cobol_to_jcl s).
Proof. apply sorted_keys_spec. Qed.

Lemma scan_keys (cobol_index : gmap str str) (jobs : list (str * str)) (p : str) :
  default [] (cobol_to_jcl (scan_jobs cobol_index jobs) !! p)
    = jobs_of cobol_index jobs p ∧
  (p ∈ dom (cobol_to_jcl (scan_jobs cobol_index jobs))
     ↔ jobs_of cobol_index jobs p ≠ []).
Proof.
  destruct (foldl_scan_job_bindings cobol_index jobs scan0 p) as [Hl Hne].
  fold (scan_jobs cobol_index jobs) in Hl, Hne.
  simpl in Hl. rewrite lookup_empty in Hl. simpl in Hl.
  split; [exact Hl|]. rewrite <- Hl, elem_of_dom.
  destruct (cobol_to_jcl (scan_jobs cobol_index jobs) !! p) as [l|] eqn:E; simpl.
  - split; [intros _|eauto]. eapply Hne; [|exact E].
    intros q l' Hq. simpl in Hq. by rewrite lookup_empty in Hq.
  - split; [by intros [? ?]|done].
Qed.

Lemma jobs_of_resolved (cobol_index : gmap str str) (jobs : list (str * str))
    (p : str) :
  jobs_of cobol_index jobs p ≠ [] → p ∈ dom cobol_index.
Proof. unfold jobs_of. by destruct (decide (p ∈ dom cobol_index)). Qed.

End Artifact.

(** X10.  The [cbl_files] of the mapping artifact list each program that
    is in the index and invoked by some job exactly once, in ascending
    order of the program name, each with the non-empty list of the jobs
    that invoke it; programs that no job invokes are not listed. *)
Theorem artifact_lists_invoked_programs
    (cobol_index : gmap str str) (jobs : list (str * str)) :
  let out := Mapping.cbl_files (Mapping.scan_jobs cobol_index jobs) in
  Sorted Mapping.str_le (DepGraph.program <$> out) ∧
  NoDup (DepGraph.program <$> out) ∧
  (∀ p, p ∈ DepGraph.program <$> out ↔ jobs_of cobol_index jobs p ≠ []) ∧
  Forall (λ pi, DepGraph.program pi ∈ dom cobol_index ∧
                DepGraph.jcl_files pi ≠ [] ∧
                DepGraph.jcl_files pi
                  = jobs_of cobol_index jobs (DepGraph.program pi)) out.
Proof.
  intros out. unfold out. rewrite cbl_files_programs.
  destruct (sorted_keys_spec
              (Analyze.cobol_to_jcl (Mapping.scan_jobs cobol_index jobs)))
    as (Hsorted & Hnd & Hmem).
  split; [exact Hsorted|]. split; [exact Hnd|]. split.
  - intros p. rewrite Hmem. apply scan_keys.
  - unfold Mapping.cbl_files. apply Forall_fmap, Forall_forall.
    intros p Hp. apply Hmem in Hp. simpl.
    destruct (scan_keys cobol_index jobs p) as [-> Hdom].
    apply Hdom in Hp. split; [by eapply jobs_of_resolved|done].
Qed.

(** X11.  The dependency graph built from the mapping artifact that the
    scan produces has no two nodes with the same identifier and type, and
    its summary has no program without a job. *)
Theorem graph_of_scanned_artifact
    (cobol_index : gmap str str) (jobs : list (str * str)) :
  let g := DepGraph.generate_dependency_graph
             (Mapping.cbl_files (Mapping.scan_jobs cobol_index jobs)) in
  NoDup (DepGraph.key <$> DepGraph.nodes g) ∧
  DepGraph.programs_without_jcl g = [].
Proof.
  intros g.
  set (out := Mapping.cbl_files (Mapping.scan_jobs cobol_index jobs)) in *.
  assert (Hnd : NoDup (DepGraph.program <$> out)).
  { unfold out. rewrite cbl_files_programs. apply sorted_keys_spec. }
  assert (Hjcl : Forall has_jcl out).
  { unfold out, Mapping.cbl_files. apply Forall_fmap, Forall_forall.
    intros p Hp. unfold has_jcl. simpl.
    apply cbl_files_keys in Hp.
    destruct (scan_keys cobol_index jobs p) as [-> Hdom]. by apply Hdom. }
  split.
  - apply (foldl_add_program_keys out DepGraph.empty []); [|done|].
    + split; [constructor|]. intros n Hn. by apply elem_of_nil in Hn.
    + intros p _ Hp. by apply elem_of_nil in Hp.
  - destruct (foldl_add_program_lists out DepGraph.empty) as [_ Hwo].
    unfold g, DepGraph.generate_dependency_graph. rewrite Hwo. simpl.
    clear -Hjcl. induction Hjcl as [|pi out Hpi _ IH]; [done|].
    rewrite filter_cons_False by tauto. exact IH.
Qed.

(** ** The program index *)

Section Index.
Import Mapping.

Lemma rfind_from_absent (c : ascii) (t : str) (pos : nat) :
  c ∉ t → rfind_from c t pos = None.
Proof.
  revert pos. induction t as [|x t IH]; intros pos Hc; [done|].
  apply not_elem_of_cons in Hc as [Hx Ht]. simpl.
  rewrite IH by done. by rewrite bool_decide_eq_false_2 by congruence.
Qed.

Lemma rfind_from_last (c : ascii) (s t : str) (pos : nat) :
  c ∉ t → rfind_from c (s ++ c :: t) pos = Some (pos + length s).
Proof.
  intros Hc. revert pos. induction s as [|x s IH]; intros pos; simpl.
  - rewrite rfind_from_absent by done.
    rewrite bool_decide_eq_true_2 by done. f_equal. lia.
  - rewrite IH. f_equal. lia.
Qed.

Lemma stem_cbl (s : str) : s ≠ [] → stem (s ++ txt ".cbl") = s.
Proof.
  intros Hs. unfold stem.
  change (txt ".cbl") with ("."%char :: txt "cbl").
  rewrite rfind_from_last.
  2:{ apply (bool_decide_unpack _). vm_compute. exact I. }
  rewrite length_app. simpl.
  destruct s as [|x s]; [done|]. simpl length.
  assert (H1 : (0 <? S (length s))%nat = true) by (apply Nat.ltb_lt; lia).
  assert (H2 : (S (length s) <? S (length s) + 4 - 1)%nat = true)
    by (apply Nat.ltb_lt; lia).
  rewrite H1, H2. simpl andb. cbv iota.
  change (S (length s)) with (length (x :: s)). by rewrite take_app_length.
Qed.

Lemma files_named_cons (k : str) (e : entry) (es : list entry) :
  files_named k (e :: es)
    = if decide (is_file e = true ∧ upper (stem (name e)) = k)
      then e :: files_named k es else files_named k es.
Proof. unfold files_named. by rewrite filter_cons. Qed.

Lemma foldl_index_entry (entries : list entry) (m : gmap str str) (k : str) :
  foldl index_entry m entries !! k
    = match last (files_named k entries) with
      | Some e => Some (path e)
      | None => m !! k
      end.
Proof.
  revert m. induction entries as [|e es IH]; intros m; [done|].
  change (foldl index_entry m (e :: es)) with (foldl index_entry (index_entry m e) es).
  rewrite IH, files_named_cons. unfold index_entry.
  destruct (decide (is_file e = true ∧ upper (stem (name e)) = k)) as [[Hf Hk]|Hn].
  - rewrite Hf, Hk, lookup_insert_eq.
    rewrite last_cons. by destruct (last (files_named k es)).
  - destruct (last (files_named k es)); [done|].
    destruct (is_file e); [|done].
    rewrite lookup_insert_ne; [done|]. intros Hk. by apply Hn.
Qed.

Lemma upper_char_idemp (c : ascii) :
  Char.upper_char (Char.upper_char c) = Char.upper_char c.
Proof.
  unfold Char.upper_char at 2 3.
  destruct (Char.is_lower c) eqn:E.
  - unfold Char.upper_char.
    assert (Char.is_lower (ascii_of_N (Char.code c - 32)) = false) as ->; [|done].
    unfold Char.is_lower, Char.between, Char.code in *.
    apply andb_true_iff in E as [E1 E2]. apply N.leb_le in E1, E2.
    rewrite N_ascii_embedding by lia.
    apply andb_false_iff. left. apply N.leb_gt. lia.
  - unfold Char.upper_char. by rewrite E.
Qed.

Lemma upper_idemp (s : str) : upper (upper s) = upper s.
Proof.
  unfold upper. induction s as [|c s IH]; [done|].
  simpl. by rewrite upper_char_idemp, IH.
Qed.

End Index.

(** X12.  The program index binds an identifier to the path of the last
    file, in discovery order, whose upper-cased stem is that identifier,
    and to nothing when there is no such file: a later file of the same
    name silently replaces an earlier one, and every key is in upper
    case. *)
Theorem index_last_file_wins (entries : list Mapping.entry) (k : str) :
  Mapping.find_cobol_files entries !! k
    = Mapping.path <$> last (files_named k entries) ∧
  (k ∈ dom (Mapping.find_cobol_files entries) ↔ files_named k entries ≠ []) ∧
  match Mapping.find_cobol_files entries !! k with
  | Some _ => upper k = k
  | None => True
  end.
Proof.
  assert (H : Mapping.find_cobol_files entries !! k
              = Mapping.path <$> last (files_named k entries)).
  { unfold Mapping.find_cobol_files. rewrite foldl_index_entry, lookup_empty.
    by destruct (last (files_named k entries)). }
  split; [exact H|]. split.
  - rewrite elem_of_dom, H. rewrite <- last_is_Some.
    destruct (last (files_named k entries)); simpl; split; intros [? ?]; eauto; done.
  - rewrite H. destruct (last (files_named k entries)) as [e|] eqn:E; [|done].
    simpl. apply last_Some_elem_of in E.
    apply list_elem_of_filter in E as [[_ <-] _]. apply upper_idemp.
Qed.

(** X13.  A source file [NAME.cbl] found in the corpus makes the program
    resolvable under the upper-cased [NAME], whatever directory it is in
    and whatever the case of its name. *)
Theorem cbl_file_is_indexed (entries : list Mapping.entry) (e : Mapping.entry)
    (stem_name : str) :
  e ∈ entries → Mapping.is_file e = true →
  Mapping.name e = stem_name ++ txt ".cbl" → stem_name ≠ [] →
  upper stem_name ∈ dom (Mapping.find_cobol_files entries).
Proof.
  intros Hin Hfile Hname Hne.
  apply elem_of_dom. unfold Mapping.find_cobol_files.
  rewrite foldl_index_entry.
  assert (He : e ∈ files_named (upper stem_name) entries).
  { apply list_elem_of_filter. split; [|done]. split; [done|].
    by rewrite Hname, stem_cbl. }
  destruct (last (files_named (upper stem_name) entries)) eqn:E; [eauto|].
  apply last_None in E. rewrite E in He. by apply elem_of_nil in He.
Qed.

(** X13, witness: [src/payroll/Paycalc.cbl]. *)
Lemma cbl_file_is_indexed_witness :
  txt "PAYCALC" ∈
    dom (Mapping.find_cobol_files
           [Mapping.Entry (txt "src/payroll/Paycalc.cbl") (txt "Paycalc.cbl") true]).
Proof.
  apply (cbl_file_is_indexed
           [Mapping.Entry (txt "src/payroll/Paycalc.cbl") (txt "Paycalc.cbl") true]
           (Mapping.Entry (txt "src/payroll/Paycalc.cbl") (txt "Paycalc.cbl") true)
           (txt "Paycalc")).
  - apply list_elem_of_here.
  - reflexivity.
  - reflexivity.
  - discriminate.
Defined.

(** ** The declared files *)

Section Groups.
Import Re.

Lemma den_groups (ic : bool) (r : regex) (prev : option ascii) (w rest : str)
    (caps : list str) :
  groups_nonspace r = true → den ic r prev w rest caps →
  length caps = ngroups r ∧ Forall word caps.
Proof.
  revert prev w rest caps.
  induction r as [p|k|r1 IH1| |r1 IH1 r2 IH2| |]; intros prev w rest caps Hr Hd;
    simpl in Hd.
  - destruct Hd as (c & _ & _ & ->). by split.
  - destruct Hd as (_ & _ & ->). by split.
  - destruct r1 as [|[| |]| | | | |]; try discriminate.
    destruct Hd as (caps1 & (Hne & Hall & ->) & ->).
    split; [done|]. repeat constructor; [done|].
    eapply Forall_impl; [exact Hall|]. intros c Hc. simpl in Hc.
    by apply negb_true_iff.
  - destruct Hd as (_ & _ & ->). by split.
  - simpl in Hr. apply andb_true_iff in Hr as [Hr1 Hr2].
    destruct Hd as (w1 & w2 & c1 & c2 & _ & Hd1 & Hd2 & ->).
    destruct (IH1 _ _ _ _ Hr1 Hd1) as [Hl1 Ha1].
    destruct (IH2 _ _ _ _ Hr2 Hd2) as [Hl2 Ha2].
    split; [rewrite length_app; simpl; lia | by apply Forall_app].
  - destruct Hd as (_ & ->). by split.
  - destruct Hd as (c & _ & _ & ->). by split.
Qed.

(** The groups of a match that a search or an iteration reports. *)
Lemma found_groups (ic : bool) (r : regex) (prev : option ascii) (s : str)
    (pos : nat) (m : match_obj) :
  groups_nonspace r = true → found_at ic r prev s pos m →
  length (m_groups m) = ngroups r ∧ Forall word (m_groups m).
Proof.
  intros Hr (pre & s' & _ & _ & Hm).
  apply match_here_sound in Hm as (w & rest & _ & _ & Hd).
  by eapply den_groups.
Qed.

Lemma is_space_upper_char (c : ascii) :
  Char.is_space (Char.upper_char c) = Char.is_space c ∧
  Char.is_lower (Char.upper_char c) = false.
Proof.
  unfold Char.upper_char. destruct (Char.is_lower c) eqn:E; [|done].
  unfold Char.is_lower, Char.is_space, Char.between, Char.code in *.
  apply andb_true_iff in E as [E1 E2]. apply N.leb_le in E1, E2.
  rewrite N_ascii_embedding by lia.
  split.
  - transitivity false; [|symmetry]; apply orb_false_iff; split;
      apply andb_false_iff; first [left; apply N.leb_gt; lia | right; apply N.leb_gt; lia].
  - apply andb_false_iff. left. apply N.leb_gt. lia.
Qed.

Lemma upper_word (w : str) : word w → token (upper w).
Proof.
  intros [Hne Hall]. split; [by destruct w|].
  unfold upper. apply Forall_fmap. eapply Forall_impl; [exact Hall|].
  intros c Hc. simpl. destruct (is_space_upper_char c) as [-> ->]. by split.
Qed.

Lemma group_word (m : match_obj) (i n : nat) :
  length (m_groups m) = n → Forall word (m_groups m) → 1 ≤ i ≤ n →
  word (group m i).
Proof.
  intros Hl Hall Hi. unfold group.
  destruct (m_groups m !! pred i) as [g|] eqn:E; simpl.
  - eapply Forall_lookup_1; eauto.
  - apply lookup_ge_None in E. lia.
Qed.

Lemma sequential_token : token (txt "SEQUENTIAL").
Proof.
  split; [done|]. apply (bool_decide_unpack _). vm_compute. exact I.
Qed.

Lemma property_token (r : regex) (section : str) :
  groups_nonspace r = true → ngroups r = 1 →
  token (Aggregated.property r section).
Proof.
  intros Hr Hn. unfold Aggregated.property, search.
  destruct (search_from Aggregated.IGNORECASE r None section 0) as [m|] eqn:E;
    [|apply sequential_token].
  apply search_from_sound in E.
  destruct (found_groups _ _ _ _ _ _ Hr E) as [Hl Hall].
  apply upper_word. apply (group_word m 1 1); [congruence|done|lia].
Qed.

End Groups.

Section Dict.
Context {V : Type}.

Lemma dict_get_set_eq (k : str) (v : V) (d : list (str * V)) :
  dict_get k (dict_set k v d) = Some v.
Proof.
  induction d as [|[k' v'] d IH]; simpl.
  - by rewrite decide_True.
  - destruct (decide (k = k')) as [->|Hne]; simpl.
    + by rewrite decide_True.
    + by rewrite decide_False.
Qed.

Lemma dict_get_set_ne (k k' : str) (v : V) (d : list (str * V)) :
  k ≠ k' → dict_get k' (dict_set k v d) = dict_get k' d.
Proof.
  intros Hne. induction d as [|[k0 v0] d IH]; simpl.
  - by rewrite decide_False.
  - destruct (decide (k = k0)) as [->|Hk]; simpl.
    + by rewrite !decide_False.
    + destruct (decide (k' = k0)); [done|exact IH].
Qed.

Lemma dict_set_keys (k : str) (v : V) (d : list (str * V)) :
  fst <$> dict_set k v d
    = if decide (k ∈ fst <$> d) then fst <$> d else (fst <$> d) ++ [k].
Proof.
  induction d as [|[k' v'] d IH]; [done|].
  cbn [dict_set]. rewrite (fmap_cons fst (k', v') d). cbn [fst].
  destruct (decide (k = k')) as [->|Hne].
  - rewrite fmap_cons. cbn [fst].
    rewrite decide_True; [done|]. apply list_elem_of_here.
  - rewrite fmap_cons, IH. cbn [fst].
    destruct (decide (k ∈ fst <$> d)) as [Hin|Hout].
    + rewrite decide_True; [done|]. by apply elem_of_cons; right.
    + rewrite decide_False; [done|]. intros [?|?]%elem_of_cons; tauto.
Qed.

Lemma dict_set_NoDup (k : str) (v : V) (d : list (str * V)) :
  NoDup (fst <$> d) → NoDup (fst <$> dict_set k v d).
Proof.
  intros Hd. rewrite dict_set_keys.
  destruct (decide (k ∈ fst <$> d)); [done|].
  apply NoDup_app. split; [done|]. split; [|apply NoDup_singleton].
  intros x Hx Hx'. apply list_elem_of_singleton in Hx' as ->. done.
Qed.

Lemma dict_set_Forall (P : str * V → Prop) (k : str) (v : V) (d : list (str * V)) :
  P (k, v) → Forall P d → Forall P (dict_set k v d).
Proof.
  intros Hk. induction 1 as [|[k' v'] d Hx Hd IH]; simpl.
  - by repeat constructor.
  - destruct (decide (k = k')); constructor; auto.
Qed.

(** Filing a sequence of items one after the other: a key ends up with
    the value of the last item filed under it. *)
Lemma foldl_dict_set {X : Type} (key : X → str) (val : X → V) (xs : list X)
    (d : list (str * V)) (k : str) :
  dict_get k (foldl (λ d x, dict_set (key x) (val x) d) d xs)
    = match last (filter (λ x, key x = k) xs) with
      | Some x => Some (val x)
      | None => dict_get k d
      end.
Proof.
  revert d. induction xs as [|x xs IH]; intros d; [done|].
  change (foldl ?f d (x :: xs)) with (foldl f (f d x) xs).
  rewrite IH, filter_cons.
  destruct (decide (key x = k)) as [<-|Hne].
  - rewrite last_cons, dict_get_set_eq.
    by destruct (last (filter (λ x0, key x0 = key x) xs)).
  - rewrite dict_get_set_ne by done. done.
Qed.

Lemma foldl_dict_set_inv {X : Type} (key : X → str) (val : X → V)
    (P : str * V → Prop) (xs : list X) (d : list (str * V)) :
  Forall (λ x, P (key x, val x)) xs →
  NoDup (fst <$> d) ∧ Forall P d →
  NoDup (fst <$> foldl (λ d x, dict_set (key x) (val x) d) d xs) ∧
  Forall P (foldl (λ d x, dict_set (key x) (val x) d) d xs).
Proof.
  intros Hxs. revert d. induction Hxs as [|x xs Hx _ IH]; intros d Hd; [done|].
  change (foldl ?f d (x :: xs)) with (foldl f (f d x) xs).
  apply IH. destruct Hd as [Hnd Hall].
  split; [by apply dict_set_NoDup | by apply dict_set_Forall].
Qed.

End Dict.

Section Declarations.
Import Re Aggregated.

Lemma extract_files_fold (text : str) :
  extract_files_from_cobol_text text
    = foldl (λ d m, dict_set (declared_name m) (declared_info text m) d) []
        (declarations text).
Proof. reflexivity. Qed.

Lemma found_occurs (ic : bool) (r : regex) (text : str) (m : match_obj) :
  found_at ic r None text 0 m → occurs ic r text.
Proof.
  intros (pre & s' & -> & _ & Hm).
  apply match_here_sound in Hm as (w & rest & -> & _ & Hd).
  rewrite lastc_None in Hd. by exists pre, w, rest, (m_groups m).
Qed.

Lemma declaration_groups (text : str) (m : match_obj) :
  m ∈ declarations text → word (group m 1) ∧ word (group m 2).
Proof.
  intros Hm. apply finditer_from_sound in Hm.
  destruct (found_groups _ _ _ _ _ _ (eq_refl : groups_nonspace select_pattern = true) Hm)
    as [Hl Hall].
  split; [apply (group_word m 1 2) | apply (group_word m 2 2)];
    first [done | lia | exact Hl].
Qed.

End Declarations.

(** X14.  The extractor files at most one entry per file name, and every
    stored field is a non-empty word without white space and without
    lower-case letters: the upper-cased file name and assignment target,
    and for organization and access mode either the upper-cased word after
    [IS] or the default SEQUENTIAL. *)
Theorem declared_files_wellformed (text : str) :
  NoDup (fst <$> Aggregated.extract_files_from_cobol_text text) ∧
  Forall (λ nf, token nf.1 ∧ token (Aggregated.assign_to nf.2) ∧
                token (Aggregated.organization nf.2) ∧
                token (Aggregated.access_mode nf.2))
         (Aggregated.extract_files_from_cobol_text text).
Proof.
  rewrite extract_files_fold. apply foldl_dict_set_inv.
  - apply Forall_forall. intros m Hm.
    destruct (declaration_groups text m Hm) as [H1 H2]. simpl.
    split; [by apply upper_word|]. split; [by apply upper_word|].
    split; by apply property_token.
  - split; constructor.
Qed.

(** X15.  When a file name is declared more than once, the entry filed
    under it is the one of the last declaration; a name that no
    declaration carries has no entry. *)
Theorem last_declaration_wins (text k : str) :
  dict_get k (Aggregated.extract_files_from_cobol_text text)
    = declared_info text
        <$> last (filter (λ m, declared_name m = k) (declarations text)).
Proof.
  rewrite extract_files_fold, foldl_dict_set.
  by destruct (last (filter (λ m, declared_name m = k) (declarations text))).
Qed.

(** X16.  A text in which no [SELECT ... ASSIGN TO ...] declaration
    occurs, in either case, yields no file at all, and extraction does not
    fail on it. *)
Theorem no_declaration_no_file (text : str) :
  ¬ occurs Aggregated.IGNORECASE Aggregated.select_pattern text →
  Aggregated.extract_files_from_cobol_text text = [] ∧
  Aggregated.typed_files text (Aggregated.extract_files_from_cobol_text text)
    = Some [].
Proof.
  intros Hno.
  assert (Hd : declarations text = []).
  { apply elem_of_nil_inv. intros m Hm. apply Hno.
    apply finditer_from_sound in Hm. by eapply found_occurs. }
  rewrite extract_files_fold, Hd. by split.
Qed.

(** X16, witness: a program with a procedure division only. *)
Lemma no_declaration_no_file_witness :
  Aggregated.extract_files_from_cobol_text
    (txt "PROCEDURE DIVISION. DISPLAY 'SELECT'. STOP RUN.") = [].
Proof.
  apply (no_declaration_no_file
           (txt "PROCEDURE DIVISION. DISPLAY 'SELECT'. STOP RUN.")).
  intros Hocc. apply search_occurs in Hocc. vm_compute in Hocc. discriminate Hocc.
Defined.

(** ** The window of a declaration *)

Section Window.






End Window.


(** ** The shape of the program graph *)

Section Star.
Import Aggregated.

Lemma create_graph_stats (p : str) (data : aggregated) (g : list stmt) (st : stats) :
  create_graph_from_aggregated_json p data = Some (g, st) →
  ∃ tf, typed_files (text data) (extract_files_from_cobol_text (text data)) = Some tf ∧
    st = Stats 1 (length (of_type INPUT tf)) (length (of_type OUTPUT tf))
           (length (of_type EXTEND tf)) (length (copybooks data))
           (bool_decide (is_Some (jclExecutionContext data))).
Proof.
  unfold create_graph_from_aggregated_json. intros H.
  destruct (typed_files (text data) (extract_files_from_cobol_text (text data)))
    as [tf|] eqn:Etf; simpl in H; [|discriminate].
  injection H as _ <-. by exists tf.
Qed.

Lemma jcl_part_shape (p : str) (ctx : option (option str)) :
  length (nodes_of (jcl_part p ctx)) = (if bool_decide (is_Some ctx) then 1 else 0) ∧
  length (edges_of (jcl_part p ctx)) = length (nodes_of (jcl_part p ctx)) ∧
  Forall (λ e, e.1.2 = pgm_id p ∧ e.1.1 ∈ fst <$> nodes_of (jcl_part p ctx))
         (edges_of (jcl_part p ctx)).
Proof.
  destruct ctx as [job|]; simpl.
  - split; [done|]. split; [done|]. repeat constructor.
  - by repeat split.
Qed.

(** The declared files have pairwise distinct names, and so have the
    files of one direction. *)
Lemma extract_files_NoDup (text : str) :
  NoDup (fst <$> extract_files_from_cobol_text text).
Proof.
  rewrite extract_files_fold.
  apply (foldl_dict_set_inv _ _ (λ _, True)).
  - by apply Forall_forall.
  - split; constructor.
Qed.

Lemma typed_files_names (text : str) (files : list (str * file_info))
    (tf : list (str * file_info * file_type)) :
  typed_files text files = Some tf → (λ x, x.1.1) <$> tf = fst <$> files.
Proof.
  unfold typed_files. intros H. apply mapM_Some in H.
  induction H as [|[n fi] y files tf Hy _ IH]; [done|].
  destruct (extract_file_type_from_fd text n); simpl in Hy; [|discriminate].
  injection Hy as <-. rewrite !fmap_cons. by f_equal.
Qed.

Lemma of_type_names (d : file_type) (tf : list (str * file_info * file_type)) :
  fst <$> of_type d tf `sublist_of` (λ x, x.1.1) <$> tf.
Proof.
  unfold of_type. induction tf as [|[[n fi] ft] tf IH]; [done|].
  rewrite fmap_cons. cbn [omap list_omap]. fold (of_type d tf) in *.
  destruct (decide (ft = d)).
  - rewrite fmap_cons. by apply sublist_skip.
  - by apply sublist_cons.
Qed.

Lemma of_type_NoDup (text : str) (d : file_type)
    (tf : list (str * file_info * file_type)) :
  typed_files text (extract_files_from_cobol_text text) = Some tf →
  NoDup (fst <$> of_type d tf).
Proof.
  intros H. eapply sublist_NoDup; [|apply of_type_names].
  rewrite (typed_files_names _ _ _ H). apply extract_files_NoDup.
Qed.

(** Identifiers with the prefix [p] before identifiers without it. *)
Lemma prefixed_app_NoDup (p : str) (l k : list str) :
  NoDup l → NoDup k → Forall (λ y, ∀ a, y ≠ p ++ a) k →
  NoDup ((app p <$> l) ++ k).
Proof.
  intros Hl Hk Hpk. apply NoDup_app. split; [by apply (NoDup_fmap_2 _)|].
  split; [|done].
  intros x (a & -> & _)%list_elem_of_fmap Hx.
  by apply (proj1 (Forall_forall _ _) Hpk (p ++ a) Hx a).
Qed.

Lemma prefixed_NoDup (p : str) (l : list str) : NoDup (app p <$> l) ↔ NoDup l.
Proof.
  split; [apply NoDup_fmap_1 | apply (NoDup_fmap_2 _)].
Qed.

(** The identifiers of the node statements, by the prefix of their kind. *)
Lemma node_ids_by_kind (p : str) (data : aggregated) (g : list stmt) (st : stats) :
  create_graph_from_aggregated_json p data = Some (g, st) →
  ∃ tf, typed_files (text data) (extract_files_from_cobol_text (text data)) = Some tf ∧
    node_ids g =
      (app (txt "PGM_") <$> [p]) ++
      (app (txt "FILE_IN_") <$> (fst <$> of_type INPUT tf)) ++
      (app (txt "FILE_OUT_") <$> (fst <$> of_type OUTPUT tf)) ++
      (app (txt "FILE_EXT_") <$> (fst <$> of_type EXTEND tf)) ++
      (app (txt "CPY_") <$> copybooks data) ++
      (app (txt "JCL_JOB") <$>
         match jclExecutionContext data with Some _ => [[]] | None => [] end).
Proof.
  intros H. destruct (create_graph_inv p data g st H) as (tf & Htf & Hn & _).
  exists tf. split; [done|]. unfold node_ids. rewrite Hn.
  rewrite !fmap_app, <- !list_fmap_compose.
  repeat (apply (f_equal2 app)); try done;
    try (by apply list_fmap_ext; intros ? [n fi] _).
  by destruct (jclExecutionContext data).
Qed.

End Star.

(** Two identifiers with prefixes that differ somewhere are not equal. *)
Local Ltac other_prefix :=
  rewrite ?Forall_app, ?Forall_fmap; repeat split; apply Forall_forall;
  intros ? _ ? E; cbv in E; congruence.

(** X18.  The statements of the program graph.  Its body has one node
    statement for the program, one per file counted as input, output or
    extend, one per copybook entry and one for the job when there is a JCL
    context.  It has exactly one edge statement less than it has node
    statements, and every edge statement names the program node at one end
    and the identifier of a node statement at the other.  The identifiers
    of the node statements are pairwise distinct exactly when no copybook
    is listed twice: a copybook listed twice is one node of the graph
    stated twice, with two edges to the program. *)
Theorem program_graph_statements
    (p : str) (data : Aggregated.aggregated)
    (g : list Aggregated.stmt) (st : Aggregated.stats) :
  Aggregated.create_graph_from_aggregated_json p data = Some (g, st) →
  length (Aggregated.nodes_of g)
    = Aggregated.program st + Aggregated.input_files st +
      Aggregated.output_files st + Aggregated.extend_files st +
      Aggregated.copybooks_count st +
      (if Aggregated.jcl_context st then 1 else 0) ∧
  S (length (Aggregated.edges_of g)) = length (Aggregated.nodes_of g) ∧
  Forall (λ e, (e.1.1 = Aggregated.pgm_id p ∨ e.1.2 = Aggregated.pgm_id p) ∧
               e.1.1 ∈ Aggregated.node_ids g ∧ e.1.2 ∈ Aggregated.node_ids g)
         (Aggregated.edges_of g) ∧
  (NoDup (Aggregated.node_ids g) ↔ NoDup (Aggregated.copybooks data)).
Proof.
  intros H.
  destruct (create_graph_inv p data g st H) as (tf' & Htf' & Hn & He).
  destruct (node_ids_by_kind p data g st H) as (tf'' & Htf'' & Hids').
  destruct (create_graph_stats p data g st H) as (tf & Htf & ->).
  assert (tf' = tf) as -> by congruence.
  assert (tf'' = tf) as -> by congruence.
  destruct (jcl_part_shape p (Aggregated.jclExecutionContext data))
    as (Hjn & Hje & Hjall).
  split; [|split; [|split]].
  - rewrite Hn, !length_app, !length_fmap, Hjn. simpl. lia.
  - rewrite Hn, He, !length_app, !length_fmap, Hje. simpl. lia.
  - assert (Hids : ∀ x, x ∈ Aggregated.nodes_of g → x.1 ∈ Aggregated.node_ids g).
    { intros x Hx. unfold Aggregated.node_ids. apply list_elem_of_fmap. eauto. }
    assert (Hp : Aggregated.pgm_id p ∈ Aggregated.node_ids g).
    { apply (Hids (Aggregated.pgm_id p, Aggregated.pgm_label p)).
      rewrite Hn. apply list_elem_of_here. }
    assert (Hin : ∀ n fi, (n, fi) ∈ Aggregated.of_type Aggregated.INPUT tf →
                  Aggregated.file_in_id n ∈ Aggregated.node_ids g).
    { intros n fi Hx. apply (Hids (Aggregated.file_in_id n, Aggregated.file_label n fi)).
      rewrite Hn, !elem_of_app. right; left.
      apply list_elem_of_fmap. by exists (n, fi). }
    assert (Hout : ∀ n fi, (n, fi) ∈ Aggregated.of_type Aggregated.OUTPUT tf →
                   Aggregated.file_out_id n ∈ Aggregated.node_ids g).
    { intros n fi Hx. apply (Hids (Aggregated.file_out_id n, Aggregated.file_label n fi)).
      rewrite Hn, !elem_of_app. right; right; left.
      apply list_elem_of_fmap. by exists (n, fi). }
    assert (Hext : ∀ n fi, (n, fi) ∈ Aggregated.of_type Aggregated.EXTEND tf →
                   Aggregated.file_ext_id n ∈ Aggregated.node_ids g).
    { intros n fi Hx. apply (Hids (Aggregated.file_ext_id n, Aggregated.file_label n fi)).
      rewrite Hn, !elem_of_app. right; right; right; left.
      apply list_elem_of_fmap. by exists (n, fi). }
    assert (Hcpy : ∀ c, c ∈ Aggregated.copybooks data →
                   Aggregated.cpy_id c ∈ Aggregated.node_ids g).
    { intros c Hx. apply (Hids (Aggregated.cpy_id c, txt "COPY" ++ [ascii_of_nat 10] ++ c)).
      rewrite Hn, !elem_of_app. right; right; right; right; left.
      apply list_elem_of_fmap. by exists c. }
    assert (Hjob : ∀ i, i ∈ fst <$> Aggregated.nodes_of
                          (Aggregated.jcl_part p (Aggregated.jclExecutionContext data)) →
                   i ∈ Aggregated.node_ids g).
    { intros i (x & -> & Hx)%list_elem_of_fmap. apply Hids.
      rewrite Hn, !elem_of_app. by right; right; right; right; right. }
    rewrite He. repeat rewrite Forall_app. repeat split.
    + apply Forall_fmap, Forall_forall. intros [n fi] Hx. simpl.
      split; [by right|]. split; [by eapply Hin|done].
    + apply Forall_fmap, Forall_forall. intros [n fi] Hx. simpl.
      split; [by left|]. split; [done|by eapply Hout].
    + apply Forall_fmap, Forall_forall. intros [n fi] Hx. simpl.
      split; [by left|]. split; [done|by eapply Hext].
    + apply Forall_fmap, Forall_forall. intros c Hx. simpl.
      split; [by right|]. split; [by apply Hcpy|done].
    + eapply Forall_impl; [exact Hjall|]. intros e [Hh Ht].
      split; [by right|]. split; [by apply Hjob|by rewrite Hh].
  - rewrite Hids'. split.
    + intros Hnd. do 4 apply NoDup_app in Hnd as (_ & _ & Hnd).
      apply NoDup_app in Hnd as (Hnd & _). by apply prefixed_NoDup in Hnd.
    + intros Hnd.
      pose proof (of_type_NoDup _ Aggregated.INPUT _ Htf) as Hi.
      pose proof (of_type_NoDup _ Aggregated.OUTPUT _ Htf) as Ho.
      pose proof (of_type_NoDup _ Aggregated.EXTEND _ Htf) as Hx.
      assert (Hj : NoDup (app (txt "JCL_JOB") <$>
                match Aggregated.jclExecutionContext data with
                | Some _ => [[]] | None => [] end)).
      { destruct (Aggregated.jclExecutionContext data);
          [apply NoDup_singleton | apply NoDup_nil_2]. }
      apply prefixed_app_NoDup; [apply NoDup_singleton| |other_prefix].
      apply prefixed_app_NoDup; [done| |other_prefix].
      apply prefixed_app_NoDup; [done| |other_prefix].
      apply prefixed_app_NoDup; [done| |other_prefix].
      apply prefixed_app_NoDup; [done|done|other_prefix].
Qed.

(** X18, witness: a program with one input file, one output file and a
    copybook listed twice. *)
Lemma program_graph_statements_witness :
  ∃ g st,
    Aggregated.create_graph_from_aggregated_json (txt "P")
      (Aggregated.Aggregated
         (txt "SELECT INF ASSIGN TO DD1. SELECT OUTF ASSIGN TO DD2. OPEN INPUT INF. OPEN OUTPUT OUTF.")
         [txt "CPYA"; txt "CPYA"] None) = Some (g, st) ∧
    length (Aggregated.nodes_of g) = 5 ∧
    S (length (Aggregated.edges_of g)) = length (Aggregated.nodes_of g) ∧
    ¬ NoDup (Aggregated.node_ids g).
Proof.
  eexists _, _. split; [reflexivity|].
  destruct (program_graph_statements (txt "P")
           (Aggregated.Aggregated
              (txt "SELECT INF ASSIGN TO DD1. SELECT OUTF ASSIGN TO DD2. OPEN INPUT INF. OPEN OUTPUT OUTF.")
              [txt "CPYA"; txt "CPYA"] None) _ _ eq_refl) as (_ & He & _ & Hnd).
  split; [reflexivity|]. split; [exact He|].
  intros Hg. apply Hnd in Hg. simpl in Hg.
  apply NoDup_cons in Hg as [Hg _]. apply Hg, list_elem_of_here.
Defined.

(** ** Texts without a marker *)

Section Markers.
Import Re.

Lemma finditer_from_nonempty (ic : bool) (r : regex) (pre w rest : str)
    (prev : option ascii) (pos : nat) (caps : list str) :
  den ic r (lastc prev pre) w rest caps →
  finditer_from ic r prev (pre ++ w ++ rest) pos 0 ≠ [].
Proof.
  revert prev pos. induction pre as [|c pre IH]; intros prev pos Hd.
  - change (lastc prev []) with prev in Hd.
    apply match_here_complete in Hd as [[n caps'] E].
    rewrite app_nil_l. destruct (w ++ rest); simpl; by rewrite E.
  - rewrite lastc_cons in Hd. simpl.
    destruct (match_here ic r prev (c :: pre ++ w ++ rest)) as [[n caps']|];
      [done|]. by apply IH.
Qed.

Lemma den_pgm_marker (prev : option ascii) (c : ascii) (rest : str) :
  upper_alnum c = true →
  den false pgm_pattern prev (txt "PGM=" ++ [c]) rest [[c]].
Proof.
  intros Hc. unfold pgm_pattern.
  exists (txt "PGM="), [c], [], [[c]]. split; [done|]. split.
  - apply den_lit. split; [|done].
    repeat constructor; by apply bool_decide_eq_true.
  - split; [|done]. exists []. split; [|done].
    split; [done|]. split; [|done].
    repeat constructor. by rewrite in_class_upper_alnum.
Qed.

End Markers.

(** X19.  The extractor returns no identifier exactly when the text has no
    [PGM=] followed by an upper-case letter or a digit: a text without
    such a marker is not an error, it yields the empty list. *)
Theorem no_marker_no_reference (jcl_content : str) :
  extract_pgm_from_jcl jcl_content = [] ↔
    ¬ ∃ c, upper_alnum c = true ∧ contains (txt "PGM=" ++ [c]) jcl_content.
Proof.
  unfold extract_pgm_from_jcl. split.
  - intros Hnil (c & Hc & pre & post & ->).
    pose proof (finditer_from_nonempty false pgm_pattern pre (txt "PGM=" ++ [c])
                  post None 0 [[c]] (den_pgm_marker _ c post Hc)) as Hne.
    destruct (Re.finditer_from false pgm_pattern None
                (pre ++ (txt "PGM=" ++ [c]) ++ post) 0 0) as [|m ms] eqn:E; [done|].
    assert (Hin : Re.group m 1 ∈
              (list_to_set (Re.findall false pgm_pattern
                 (pre ++ (txt "PGM=" ++ [c]) ++ post)) : gset str)).
    { apply elem_of_list_to_set. unfold Re.findall, Re.finditer. rewrite E.
      rewrite fmap_cons. apply list_elem_of_here. }
    apply elem_of_elements in Hin. rewrite Hnil in Hin. by apply elem_of_nil in Hin.
  - intros Hno. apply elem_of_nil_inv. intros x Hx. apply Hno.
    apply elem_of_elements, elem_of_list_to_set in Hx.
    unfold Re.findall in Hx. apply list_elem_of_fmap in Hx as (m & -> & Hm).
    apply finditer_from_sound in Hm as (pre & s' & -> & _ & Hm).
    apply match_here_pgm in Hm as (x & rest & -> & _ & Hx & Hall & _).
    destruct x as [|c x]; [done|]. apply Forall_cons in Hall as [Hc _].
    exists c. split; [done|]. exists pre, (x ++ rest).
    by rewrite <- !app_assoc.
Qed.

(** ** The exit code of the wrapper *)

(** The ways of [main] that do not end in [sys.exit(0)]. *)
Local Ltac wrapper_ends :=
  simpl; repeat split; try done; try (by right);
  try (by intros [? [=]]);
  try (intros (?&?&?&?&?&?&[= <- <- <-]&[= <-]&?&?&[[? ?]|[? [? ?]]]&?);
       congruence).

Local Ltac wrapper_raised e out :=
  unfold Wrapper.handler, Wrapper.print_json; destruct (Wrapper.class e); simpl;
  try (destruct out as [[]|?] eqn:?); wrapper_ends.

(** X20.  The wrapper ends by [sys.exit(0)] exactly when it was given a
    path and every step went through: the parser was built, the file was
    read, the text was parsed, the [to_json] method, when the parsed
    object has one, returned, [json.dumps] encoded what went into the
    dictionary, and the text was printed.  When [main] ends by [sys.exit]
    at all, the code is 0 or 1.  Without a path argument it reports
    INVALID_ARGUMENTS and exits with code 1 when that report was
    printed. *)
Theorem wrapper_exit_code {parser parsed json : Type}
    (JCLParser : Wrapper.result parser)
    (read_file : str → Wrapper.result str)
    (parse_string : parser → str → Wrapper.result parsed)
    (to_json : parsed → option (Wrapper.result json))
    (dumps_json : json → Wrapper.result unit)
    (dumps_parsed : parsed → Wrapper.result unit)
    (stdout_write : Wrapper.result unit)
    (argv : list str) :
  let out := Wrapper.main JCLParser read_file parse_string to_json
               dumps_json dumps_parsed stdout_write argv in
  ((∃ d, out = Wrapper.Exit d 0%Z) ↔
     ∃ script path rest p content parsed_jcl,
       argv = script :: path :: rest ∧
       JCLParser = Wrapper.Ok p ∧
       read_file path = Wrapper.Ok content ∧
       parse_string p content = Wrapper.Ok parsed_jcl ∧
       (to_json parsed_jcl = None ∧ dumps_parsed parsed_jcl = Wrapper.Ok tt ∨
        ∃ j, to_json parsed_jcl = Some (Wrapper.Ok j) ∧
             dumps_json j = Wrapper.Ok tt) ∧
       stdout_write = Wrapper.Ok tt) ∧
  match out with
  | Wrapper.Exit d code =>
      (code = 0%Z ∨ code = 1%Z) ∧
      (code = 0%Z → ∃ path,
         dict_get (txt "file") d = Some (Wrapper.VStr path) ∧
         argv !! 1%nat = Some path)
  | Wrapper.Uncaught _ => True
  end ∧
  match argv with
  | _ :: _ :: _ => True
  | _ =>
      match stdout_write with
      | Wrapper.Ok _ => out = Wrapper.Exit Wrapper.error_result 1%Z
      | Wrapper.Raise e => out = Wrapper.Uncaught e
      end
  end.
Proof.
  intros out. unfold out.
  destruct argv as [|script [|path rest]].
  1,2: unfold Wrapper.main, Wrapper.print_json; simpl;
    destruct stdout_write as [[]|e]; simpl;
    (split; [split; [by intros [d [=]] | by intros (?&?&?&?&?&?&[=]&_)]|]);
    (split; [|done]); try done; (split; [by right|done]).
  unfold Wrapper.main, Wrapper.parse_jcl_file, Wrapper.parse_body, Wrapper.bind.
  destruct JCLParser as [p|e]; [|wrapper_raised e stdout_write].
  destruct (read_file path) as [content|e] eqn:Er; [|wrapper_raised e stdout_write].
  destruct (parse_string p content) as [pj|e] eqn:Ep; [|wrapper_raised e stdout_write].
  unfold Wrapper.print_json, Wrapper.bind.
  destruct (to_json pj) as [[j|e]|] eqn:Ej; [| wrapper_raised e stdout_write |].
  - simpl. destruct (dumps_json j) as [[]|e] eqn:Ed; [|wrapper_ends].
    destruct stdout_write as [[]|e] eqn:Ew; [|wrapper_ends].
    split; [|split; [split; [by left|by exists path]|done]].
    split; [|by eexists].
    intros _. exists script, path, rest, p, content, pj.
    repeat split; eauto.
  - simpl. destruct (dumps_parsed pj) as [[]|e] eqn:Ed; [|wrapper_ends].
    destruct stdout_write as [[]|e] eqn:Ew; [|wrapper_ends].
    split; [|split; [split; [by left|by exists path]|done]].
    split; [|by eexists].
    intros _. exists script, path, rest, p, content, pj.
    repeat split; eauto.
Qed.
